(** * AthenaTable.cast_dataframe: a shallow embedding and its properties

    The method [AthenaTable.cast_dataframe] of [athena_table.py] walks the
    Glue column list of a table and, for every column that the pandas
    frame also has, rewrites that column of the frame in place: date
    parsing for temporal names, zero padding for code columns, then a cast
    to the declared Glue type.

    The frame is a mutable object shared with the caller, so the method is
    embedded in a state-and-exception monad over the frame: a run yields
    the frame as the caller sees it afterwards together with either the
    returned value or the exception that was raised. *)

From Stdlib Require Import ZArith String Ascii List Bool Lia DecimalString.
From Stdlib Require Import Permutation.
Import ListNotations.
Open Scope string_scope.

(** ** Scalars, series and frames *)

(** The scalar values a cell of the frame can hold: a Python integer, a
    Python string, or a pandas timestamp (kept by its ISO text, which is
    also what [str] prints for it). *)
Inductive value : Type :=
| VInt (n : Z)
| VStr (s : string)
| VTime (iso : string).

Definition Series : Type := list value.

(** A frame is an ordered list of named columns. *)
Definition Frame : Type := list (string * Series).

(** One entry of [glue_definition["Table"]["StorageDescriptor"]["Columns"]]. *)
Record Column : Type := mkColumn { Name : string; Type_ : string }.

(** What a run can raise.  [ParseError] comes from [pandas.to_datetime],
    [TypeCoercionError] from [cast_series_type], [TypeError] from the
    product [100 * geo_cd] on a timestamp, [KeyError] from reading a column
    the frame does not have. *)
Inductive exn : Type :=
| ParseError (row : nat) (raw : value)
| TypeCoercionError (row : nat) (raw : value) (ty : string)
| TypeError (row : nat) (raw : value)
| KeyError (col : string).

Inductive result (A : Type) : Type :=
| Ok (a : A)
| Raise (e : exn).
Arguments Ok {A} a.
Arguments Raise {A} e.

(** ** Python string operations used by the method *)

(** [s.endswith(suffix)] *)
Fixpoint endswith (s suffix : string) : bool :=
  String.eqb s suffix
  || match s with
     | EmptyString => false
     | String _ s' => endswith s' suffix
     end.

(** [s.__contains__(sub)] *)
Fixpoint contains (s sub : string) : bool :=
  prefix sub s
  || match s with
     | EmptyString => false
     | String _ s' => contains s' sub
     end.

(** [str(v)] *)
Definition str (v : value) : string :=
  match v with
  | VInt n => NilZero.string_of_int (Z.to_int n)
  | VStr s => s
  | VTime iso => iso
  end.

Fixpoint zeros (n : nat) : string :=
  match n with
  | O => EmptyString
  | S k => String "0" (zeros k)
  end.

(** Modelled from the spec: the helper [zfill(value, width)] is called by
    [cast_dataframe] but defined outside [athena_table.py].  The spec says:
    convert the value to its decimal string form, left-pad with "0"
    characters until the string reaches the target width; a value already
    at or beyond the width is left unchanged. *)
Definition zfill (v : value) (width : nat) : value :=
  VStr (zeros (width - String.length (str v)) ++ str v).

Fixpoint repeat_str (n : nat) (s : string) : string :=
  match n with
  | O => EmptyString
  | S k => s ++ repeat_str k s
  end.

(** [k * v] for a Python integer [k]: the product on integers, repetition
    on strings, a [TypeError] on timestamps. *)
Definition mul (k : Z) (row : nat) (v : value) : result value :=
  match v with
  | VInt n => Ok (VInt (k * n))
  | VStr s => Ok (VStr (repeat_str (Z.to_nat k) s))
  | VTime _ => Raise (TypeError row v)
  end.

(** [v == w] on scalars. *)
Definition value_eqb (v w : value) : bool :=
  match v, w with
  | VInt a, VInt b => Z.eqb a b
  | VStr a, VStr b => String.eqb a b
  | VTime a, VTime b => String.eqb a b
  | _, _ => false
  end.

(** ** Series operations *)

(** [series.apply(f)]: [f] is called on every value in row order; the
    first exception stops the walk.  [row] is the index of the head. *)
Fixpoint apply_from (row : nat) (f : nat -> value -> result value)
         (xs : Series) : result Series :=
  match xs with
  | [] => Ok []
  | x :: rest =>
      match f row x with
      | Raise e => Raise e
      | Ok y =>
          match apply_from (S row) f rest with
          | Raise e => Raise e
          | Ok ys => Ok (y :: ys)
          end
      end
  end.

Definition apply (f : nat -> value -> result value) (xs : Series)
  : result Series :=
  apply_from 0 f xs.

(** ** Frame operations *)

Definition columns (frame : Frame) : list string := map fst frame.

(** [name in frame.columns] *)
Definition in_columns (name : string) (frame : Frame) : bool :=
  existsb (String.eqb name) (columns frame).

(** [frame[col]] *)
Fixpoint getitem (frame : Frame) (col : string) : option Series :=
  match frame with
  | [] => None
  | (name, xs) :: rest =>
      if String.eqb col name then Some xs else getitem rest col
  end.

(** [frame[col] = ys]: an existing column is replaced where it stands, a
    new one is appended. *)
Fixpoint setitem (frame : Frame) (col : string) (ys : Series) : Frame :=
  match frame with
  | [] => [(col, ys)]
  | (name, xs) :: rest =>
      if String.eqb col name then (name, ys) :: rest
      else (name, xs) :: setitem rest col ys
  end.

(** ** The monad of frame-mutating code *)

Definition M (A : Type) : Type := Frame -> Frame * result A.

Definition ret {A : Type} (a : A) : M A := fun frame => (frame, Ok a).

Definition bind {A B : Type} (m : M A) (k : A -> M B) : M B :=
  fun frame =>
    match m frame with
    | (frame', Ok a) => k a frame'
    | (frame', Raise e) => (frame', Raise e)
    end.

Notation "m ;; k" := (bind m (fun _ => k))
  (at level 61, right associativity).

Definition when (b : bool) (m : M unit) : M unit :=
  if b then m else ret tt.

(** [return frame]: the returned value is the mutated object itself. *)
Definition return_frame : M Frame := fun frame => (frame, Ok frame).

(** [frame[col] = g(frame[col])]: the right-hand side is evaluated first,
    so a raising [g] leaves the column as it was. *)
Definition update (col : string) (g : Series -> result Series) : M unit :=
  fun frame =>
    match getitem frame col with
    | None => (frame, Raise (KeyError col))
    | Some xs =>
        match g xs with
        | Ok ys => (setitem frame col ys, Ok tt)
        | Raise e => (frame, Raise e)
        end
    end.

(** ** The padding lambdas of the method *)

Definition tract_rule (row : nat) (geo_cd : value) : result value :=
  match mul 100 row geo_cd with
  | Ok product => Ok (zfill product 6)
  | Raise e => Raise e
  end.

Definition unk_rule (unk_cd : value) : value :=
  if value_eqb unk_cd (VStr "UNK") then unk_cd else zfill unk_cd 2.

(** ** The padding statements, one per [if] of the method *)

Definition zip_step (col : string) : M unit :=
  when (contains col "zip_cd" || contains col "cbsa_cd")
       (update col (apply (fun _ geo_cd => Ok (zfill geo_cd 5)))).

Definition cnty_step (col : string) : M unit :=
  when (contains col "cnty_cd")
       (update col (apply (fun _ geo_cd => Ok (zfill geo_cd 3)))).

Definition sale_regn_step (col : string) : M unit :=
  when (contains col "sale_regn_cd")
       (update col (apply (fun _ geo_cd => Ok (zfill geo_cd 2)))).

Definition msa_step (col : string) : M unit :=
  when (contains col "prim_msa_cd")
       (update col (apply (fun _ geo_cd => Ok (zfill geo_cd 4)))).

Definition tract_step (col : string) : M unit :=
  when (contains col "prim_census_tract_cd")
       (update col (apply tract_rule)).

Definition customer_step (col : string) : M unit :=
  when (contains col "customer_id" || contains col "_cust_id")
       (update col (apply (fun _ customer_id => Ok (zfill customer_id 10)))).

Definition unk_step (col : string) : M unit :=
  when (contains col "lnprps_cd" || contains col "uw_desgntn_cd")
       (update col (apply (fun _ unk_cd => Ok (unk_rule unk_cd)))).

(** The seven padding statements in the order of the method. *)
Definition padding_steps (col : string) : M unit :=
  zip_step col ;; cnty_step col ;; sale_regn_step col ;; msa_step col ;;
  tract_step col ;; customer_step col ;; unk_step col.

Definition has_temporal_suffix (col : string) : bool :=
  endswith col "date"
  || endswith col "_dt"
  || endswith col "_ts"
  || endswith col "_date_time"
  || endswith col "_timestamp".

(** ** The method, over its two external collaborators *)

Section CastDataframe.

(** [pandas.to_datetime] on one value: the ISO text of the timestamp it
    parses to, or [None] when the value cannot be parsed. *)
Variable parse_datetime : value -> option string.

(** The catalog type vocabulary: [cast_value ty v] is [v] cast to the
    Glue type [ty], or [None] when [v] is malformed for [ty]. *)
Variable cast_value : string -> value -> option value.

(** [pandas.to_datetime(series)] *)
Definition to_datetime (xs : Series) : result Series :=
  apply (fun row v =>
           match parse_datetime v with
           | Some iso => Ok (VTime iso)
           | None => Raise (ParseError row v)
           end) xs.

(** Modelled from the spec: the helper [cast_series_type(series, type)]
    is called by [cast_dataframe] but defined outside [athena_table.py].
    The spec says: cast the column to the schema's declared type using
    the catalog type vocabulary; a malformed value signals a
    [TypeCoercionError] naming the row index, the raw value and the
    target type; no row is skipped or defaulted. *)
Definition cast_series_type (xs : Series) (ty : string) : result Series :=
  apply (fun row v =>
           match cast_value ty v with
           | Some u => Ok u
           | None => Raise (TypeCoercionError row v ty)
           end) xs.

Definition temporal_step (col : string) : M unit :=
  when (has_temporal_suffix col) (update col to_datetime).

Definition cast_step (column : Column) : M unit :=
  update (Name column) (fun xs => cast_series_type xs (Type_ column)).

(** The body of the [for] loop. *)
Definition cast_column (column : Column) : M unit :=
  fun frame =>
    if in_columns (Name column) frame then
      let col := Name column in
      (temporal_step col ;; padding_steps col ;; cast_step column) frame
    else (frame, Ok tt).

Fixpoint for_columns (cols : list Column) : M unit :=
  match cols with
  | [] => ret tt
  | column :: rest => cast_column column ;; for_columns rest
  end.

(** [AthenaTable.cast_dataframe(self, frame)], with [cols] the Glue
    column list of [self]. *)
Definition cast_dataframe (cols : list Column) : M Frame :=
  for_columns cols ;; return_frame.

End CastDataframe.

(** ** A small instance of the two collaborators

    Enough of [pandas.to_datetime] and of the type vocabulary to run the
    method on concrete frames: ISO dates parse and typed timestamps are
    kept (this small instance takes nothing else); the types are [string],
    [bigint] and [timestamp]. *)

Definition is_digit (c : ascii) : bool :=
  (48 <=? nat_of_ascii c)%nat && (nat_of_ascii c <=? 57)%nat.

Fixpoint all_digits (s : string) : bool :=
  match s with
  | EmptyString => true
  | String c s' => is_digit c && all_digits s'
  end.

Definition iso_date_shape (s : string) : bool :=
  (String.length s =? 10)%nat
  && all_digits (substring 0 4 s) && String.eqb (substring 4 1 s) "-"
  && all_digits (substring 5 2 s) && String.eqb (substring 7 1 s) "-"
  && all_digits (substring 8 2 s).

Definition sample_parse_datetime (v : value) : option string :=
  match v with
  | VTime iso => Some iso
  | VStr s => if iso_date_shape s then Some (s ++ " 00:00:00") else None
  | VInt _ => None
  end.

Definition sample_cast_value (ty : string) (v : value) : option value :=
  if String.eqb ty "string" then Some (VStr (str v))
  else if String.eqb ty "bigint" then
    match v with
    | VInt n => Some (VInt n)
    | VStr s =>
        match NilZero.int_of_string s with
        | Some d => Some (VInt (Z.of_int d))
        | None => None
        end
    | VTime _ => None
    end
  else if String.eqb ty "timestamp" then
    match v with
    | VTime _ => Some v
    | _ => None
    end
  else None.

Definition sample_cast_dataframe : list Column -> M Frame :=
  cast_dataframe sample_parse_datetime sample_cast_value.

(** Frames and schemas to run the method on. *)

Definition demo_schema : list Column :=
  [ mkColumn "zip_cd" "string";
    mkColumn "event_date" "timestamp";
    mkColumn "loan_cnt" "bigint";
    mkColumn "not_in_frame" "string" ].

Definition demo_frame : Frame :=
  [ ("zip_cd", [VInt 123; VInt 123456]);
    ("event_date", [VStr "2020-01-31"; VStr "2021-12-01"]);
    ("loan_cnt", [VStr "42"; VInt 7]);
    ("note", [VStr "kept"; VStr "as is"]) ].

Definition demo_normalized : Frame :=
  [ ("zip_cd", [VStr "00123"; VStr "123456"]);
    ("event_date",
      [VTime "2020-01-31 00:00:00"; VTime "2021-12-01 00:00:00"]);
    ("loan_cnt", [VInt 42; VInt 7]);
    ("note", [VStr "kept"; VStr "as is"]) ].

Definition bad_date_schema : list Column :=
  [mkColumn "zip_cd" "string"; mkColumn "event_date" "timestamp"].

Definition bad_date_frame : Frame :=
  [("zip_cd", [VInt 123]); ("event_date", [VStr "not-a-date"])].

(** ** The padding table of the spec

    Each row: the substrings that select the rule, its width, and whether
    the value is multiplied by 100 first.  The "UNK" special case of the
    last row is kept in [unk_rule]. *)

Inductive special : Type := Plain | Times100 | KeepUNK.

Record rule : Type :=
  mkRule { substrings : list string; width : nat; special_case : special }.

Definition padding_table : list rule :=
  [ mkRule ["zip_cd"; "cbsa_cd"] 5 Plain;
    mkRule ["cnty_cd"] 3 Plain;
    mkRule ["sale_regn_cd"] 2 Plain;
    mkRule ["prim_msa_cd"] 4 Plain;
    mkRule ["prim_census_tract_cd"] 6 Times100;
    mkRule ["customer_id"; "_cust_id"] 10 Plain;
    mkRule ["lnprps_cd"; "uw_desgntn_cd"] 2 KeepUNK ].

Definition matches (col : string) (r : rule) : bool :=
  existsb (contains col) (substrings r).

(** The transform of a rule on one value. *)
Definition rule_transform (r : rule) (row : nat) (v : value) : result value :=
  match special_case r with
  | Plain => Ok (zfill v (width r))
  | Times100 =>
      match mul 100 row v with
      | Ok product => Ok (zfill product (width r))
      | Raise e => Raise e
      end
  | KeepUNK =>
      Ok (if value_eqb v (VStr "UNK") then v else zfill v (width r))
  end.

(** Apply the matching rules of a table in table order, each on the column
    as the previous one left it. *)
Fixpoint chain (col : string) (rules : list rule) : M unit :=
  match rules with
  | [] => ret tt
  | r :: rest =>
      when (matches col r) (update col (apply (rule_transform r))) ;;
      chain col rest
  end.

(** The same on the series alone: the rules of a list applied one after
    the other, the output of each being the input of the next. *)
Fixpoint chain_series (rules : list rule) (xs : Series) : result Series :=
  match rules with
  | [] => Ok xs
  | r :: rest =>
      match apply (rule_transform r) xs with
      | Ok ys => chain_series rest ys
      | Raise e => Raise e
      end
  end.

(** The widest rule of a list that matches a name (0 when none does). *)
Definition widest (col : string) (rules : list rule) : nat :=
  fold_right (fun r w => if matches col r then Nat.max (width r) w else w)
             0 rules.

Definition width_of (col : string) : nat := widest col padding_table.

(** A rule that pads and does nothing else: a plain one, or one whose kept
    literal "UNK" is no shorter than its width. *)
Definition pads_only (r : rule) : Prop :=
  match special_case r with
  | Plain => True
  | Times100 => False
  | KeepUNK => width r <= 3
  end.

Definition matches_padding (col : string) : bool :=
  existsb (matches col) padding_table.

(** The row counts of a frame, column by column. *)
Definition shape (frame : Frame) : list (string * nat) :=
  map (fun c => (fst c, List.length (snd c))) frame.

(** [frame'] differs from [frame] at most in the values of column [col]. *)
Definition same_but (col : string) (frame frame' : Frame) : Prop :=
  shape frame' = shape frame
  /\ forall c, c <> col -> getitem frame' c = getitem frame c.

(** A statement that, whatever it returns or raises, leaves the row counts
    of the frame and every column but [c] as they were. *)
Definition confined {A : Type} (c : string) (m : M A) : Prop :=
  forall frame frame' r, m frame = (frame', r) -> same_but c frame frame'.

Section Renormalization.

Variable parse_datetime : value -> option string.
Variable cast_value : string -> value -> option value.

(** A schema entry on which a second run can be neutral: the name does not
    select the census-tract rule; a padded column is not temporal as well
    and is declared with a type whose cast keeps strings; a temporal column
    is declared with a type whose cast keeps typed timestamps, which
    [to_datetime] keeps too; for any other column the cast to the declared
    type gives back a value it has produced. *)
Definition renormalizable (column : Column) : Prop :=
  contains (Name column) "prim_census_tract_cd" = false
  /\ (matches_padding (Name column) = true ->
      has_temporal_suffix (Name column) = false
      /\ forall s, cast_value (Type_ column) (VStr s) = Some (VStr s))
  /\ (has_temporal_suffix (Name column) = true ->
      (forall iso, parse_datetime (VTime iso) = Some iso)
      /\ forall iso,
          cast_value (Type_ column) (VTime iso) = Some (VTime iso))
  /\ (matches_padding (Name column) = false ->
      has_temporal_suffix (Name column) = false ->
      forall v u,
        cast_value (Type_ column) v = Some u ->
        cast_value (Type_ column) u = Some u).

(** A value as a run leaves it in the column of an entry: a timestamp
    under a temporal name, a string at the width of the name under a
    padded one, and in any case a value the cast gives back. *)
Definition settled (column : Column) (u : value) : Prop :=
  (has_temporal_suffix (Name column) = true -> exists iso, u = VTime iso)
  /\ (matches_padding (Name column) = true ->
      exists s, u = VStr s /\ width_of (Name column) <= String.length s)
  /\ cast_value (Type_ column) u = Some u.

End Renormalization.

(** ** The method as a function of the frame

    What the loop computes when nothing is stored before everything has
    succeeded: the three stages on one series, one column of the frame,
    the whole schema. *)

Section PureNormalizer.

Variable parse_datetime : value -> option string.
Variable cast_value : string -> value -> option value.

Definition temporal_series (col : string) (xs : Series) : result Series :=
  if has_temporal_suffix col then to_datetime parse_datetime xs else Ok xs.

Definition normalize_series (column : Column) (xs : Series)
  : result Series :=
  match temporal_series (Name column) xs with
  | Raise e => Raise e
  | Ok ys =>
      match chain_series
              (filter (matches (Name column)) padding_table) ys with
      | Raise e => Raise e
      | Ok zs => cast_series_type cast_value zs (Type_ column)
      end
  end.

Definition normalize_column (column : Column) (frame : Frame)
  : result Frame :=
  match getitem frame (Name column) with
  | None => Ok frame
  | Some xs =>
      match normalize_series column xs with
      | Raise e => Raise e
      | Ok ys => Ok (setitem frame (Name column) ys)
      end
  end.

Fixpoint normalize_frame (cols : list Column) (frame : Frame)
  : result Frame :=
  match cols with
  | [] => Ok frame
  | column :: rest =>
      match normalize_column column frame with
      | Raise e => Raise e
      | Ok frame1 => normalize_frame rest frame1
      end
  end.

(** The three ways a column can fail. *)
Inductive failure (column : Column) : exn -> Prop :=
| fails_to_parse row raw :
    has_temporal_suffix (Name column) = true ->
    parse_datetime raw = None ->
    failure column (ParseError row raw)
| fails_to_multiply row iso :
    contains (Name column) "prim_census_tract_cd" = true ->
    failure column (TypeError row (VTime iso))
| fails_to_cast row raw :
    cast_value (Type_ column) raw = None ->
    failure column (TypeCoercionError row raw (Type_ column)).

End PureNormalizer.

(** * The table-management methods

    The other methods of [AthenaTable] talk to Glue, Athena and S3.  A run
    is embedded over the object and the log of the external calls made so
    far; what the outside answers is given by a record of services, each
    answer a function of that log. *)

(** ** Python string splitting *)

(** What these methods can raise. *)
Inductive error : Type :=
| AssertionError (msg : string)
| ValueError (msg : string)
| IndexError
| KeyError_ (key : string)
| TypeError_
| ExternalError (what : string).

Inductive outcome (A : Type) : Type :=
| Returns (a : A)
| Raises (e : error).
Arguments Returns {A} a.
Arguments Raises {A} e.

Definition more_splits (maxsplit : option nat) : bool :=
  match maxsplit with
  | Some O => false
  | _ => true
  end.

Definition one_less (maxsplit : option nat) : option nat :=
  match maxsplit with
  | Some (S k) => Some k
  | other => other
  end.

(** Put a character in front of the first piece. *)
Definition push (c : ascii) (pieces : list string) : list string :=
  match pieces with
  | [] => [String c EmptyString]
  | p :: rest => String c p :: rest
  end.

(** The pieces of [s] between the occurrences of [sep], found left to
    right without overlap; [skip] characters of a separator just found
    are still to be passed over; at most [maxsplit] cuts are made. *)
Fixpoint split_from (sep : string) (skip : nat) (maxsplit : option nat)
         (s : string) : list string :=
  match s with
  | EmptyString => [EmptyString]
  | String c s' =>
      match skip with
      | S k => split_from sep k maxsplit s'
      | O =>
          if more_splits maxsplit && prefix sep s
          then EmptyString
                 :: split_from sep (String.length sep - 1)
                      (one_less maxsplit) s'
          else push c (split_from sep 0 maxsplit s')
      end
  end.

(** [s.split(sep)] ([maxsplit = None]) and [s.split(sep, n)]. *)
Definition str_split (s sep : string) (maxsplit : option nat)
  : outcome (list string) :=
  match sep with
  | EmptyString => Raises (ValueError "empty separator")
  | _ => Returns (split_from sep 0 maxsplit s)
  end.

(** [pieces[i]] *)
Definition index (pieces : list string) (i : nat) : outcome string :=
  match nth_error pieces i with
  | Some p => Returns p
  | None => Raises IndexError
  end.

(** [pieces[-1]] *)
Definition last_item (pieces : list string) : outcome string :=
  match rev pieces with
  | p :: _ => Returns p
  | [] => Raises IndexError
  end.

(** No character of [s] is [c]. *)
Fixpoint lacks (c : ascii) (s : string) : bool :=
  match s with
  | EmptyString => true
  | String d s' => negb (Ascii.eqb c d) && lacks c s'
  end.

(** [bucket, prefix = location.split("//")[-1].split("/", 1)] of
    [list_objects]. *)
Definition bucket_and_prefix (location : string)
  : outcome (string * string) :=
  match str_split location "//" None with
  | Raises e => Raises e
  | Returns pieces =>
      match last_item pieces with
      | Raises e => Raises e
      | Returns tail =>
          match str_split tail "/" (Some 1) with
          | Raises e => Raises e
          | Returns [bucket; prefix] => Returns (bucket, prefix)
          | Returns [_] =>
              Raises (ValueError
                        "not enough values to unpack (expected 2, got 1)")
          | Returns _ =>
              Raises (ValueError "too many values to unpack (expected 2)")
          end
      end
  end.

(** [location.split(table_bucket)[1].split("/", 2)[2]] of
    [s3_table_path]. *)
Definition path_below_root (location table_bucket : string)
  : outcome string :=
  match str_split location table_bucket None with
  | Raises e => Raises e
  | Returns pieces =>
      match index pieces 1 with
      | Raises e => Raises e
      | Returns after =>
          match str_split after "/" (Some 2) with
          | Raises e => Raises e
          | Returns parts => index parts 2
          end
      end
  end.

(** [_file.split('/',1)[-1]] of [populate_from_source]. *)
Definition after_first_slash (_file : string) : outcome string :=
  match str_split _file "/" (Some 1) with
  | Raises e => Raises e
  | Returns pieces => last_item pieces
  end.

(** [f"{s3_root}/{table_schema}/{table_name}/{_file.split('/',1)[-1]}"] *)
Definition destination_key (s3_root table_schema table_name _file : string)
  : outcome string :=
  match after_first_slash _file with
  | Raises e => Raises e
  | Returns rest =>
      Returns (s3_root ++ "/" ++ table_schema ++ "/" ++ table_name
               ++ "/" ++ rest)
  end.

(** ** The object, the outside, and the methods *)

Module AthenaTable.

(** The members of the three enumerations that the file names; any other
    member is kept by its name. *)
Inductive AccessType : Type :=
| READONLY
| OVERWRITE
| OtherAccess (name : string).

Inductive SourceType : Type :=
| INCOMING
| HTTP
| PRODUCTION
| LEGACY
| ATHENA
| OtherSource (name : string).

Inductive PrestoTableType : Type :=
| UNKNOWN
| VIRTUAL_VIEW
| OtherTable (name : string).

Definition AccessType_eqb (a b : AccessType) : bool :=
  match a, b with
  | READONLY, READONLY => true
  | OVERWRITE, OVERWRITE => true
  | OtherAccess x, OtherAccess y => String.eqb x y
  | _, _ => false
  end.

Definition SourceType_eqb (a b : SourceType) : bool :=
  match a, b with
  | INCOMING, INCOMING => true
  | HTTP, HTTP => true
  | PRODUCTION, PRODUCTION => true
  | LEGACY, LEGACY => true
  | ATHENA, ATHENA => true
  | OtherSource x, OtherSource y => String.eqb x y
  | _, _ => false
  end.

(** What [glue_definition["Table"]["StorageDescriptor"]] holds. *)
Record GlueTable : Type :=
  mkGlueTable { Location : string; Columns : list Column }.

(** [glue_definition]: the value [__init__] stores, an object that is
    neither empty nor a dict, or a dict, empty or describing a table. *)
Inductive GlueDefinition : Type :=
| Placeholder
| Dict (table : option GlueTable).

(** [bool(glue_definition)] *)
Definition truthy (g : GlueDefinition) : bool :=
  match g with
  | Placeholder => true
  | Dict None => false
  | Dict (Some _) => true
  end.

(** [glue_definition["Table"]["StorageDescriptor"]] *)
Definition storage_descriptor (g : GlueDefinition) : outcome GlueTable :=
  match g with
  | Placeholder => Raises TypeError_
  | Dict None => Raises (KeyError_ "Table")
  | Dict (Some table) => Returns table
  end.

Record t : Type :=
  mk {
    table_schema : string;
    table_name : string;
    access_type : AccessType;
    source_type : SourceType;
    source_path : option string;
    table_bucket : string;
    glue_definition : GlueDefinition;
    table_type : PrestoTableType
  }.

Definition _DEFAULT_BUCKET : string := "my_default_bucket".

(** [__init__]: the two last arguments are not used. *)
Definition __init__ (table_schema table_name : string)
           (access_type : AccessType) (source_type : SourceType) : t :=
  {| table_schema := table_schema;
     table_name := table_name;
     access_type := READONLY;
     source_type := INCOMING;
     source_path := None;
     table_bucket := _DEFAULT_BUCKET;
     glue_definition := Placeholder;
     table_type := UNKNOWN |}.

Definition with_glue_definition (self : t) (g : GlueDefinition) : t :=
  {| table_schema := table_schema self;
     table_name := table_name self;
     access_type := access_type self;
     source_type := source_type self;
     source_path := source_path self;
     table_bucket := table_bucket self;
     glue_definition := g;
     table_type := table_type self |}.

(** The calls that leave the object. *)
Inductive Event : Type :=
| SetGlueDictionary
| Execute (stmt : string)
| TableDrop (name : string)
| ListObjects (bucket prefix : string)
| DeleteObject (bucket key : string)
| Copy (source_bucket source_key bucket key : string)
| Print (msg : string)
| Listen (files_are_parquet : option bool)
| ReadFile (path : string)
| ReadCsv (path : option string)
| ToParquet (path : string) (frame : Frame).

(** What the outside and the methods defined elsewhere answer, given the
    calls made so far: [fetched] is the object as [set_glue_dictionary]
    leaves it, [raises] says whether a call raises, the others are the
    values of [presto_table_type], [s3_root], [s3_list_objects] (its
    "Contents" keys, if any), [listen], [open(...).read()],
    [pandas.read_csv], [str.lower], [castframe], [_current_file] and
    [str] on the object and on enumeration members. *)
Record Services : Type :=
  mkServices {
    fetched : list Event -> t -> t;
    raises : list Event -> Event -> option string;
    presto_table_type : list Event -> t -> PrestoTableType;
    s3_root : list Event -> t -> string;
    listed : list Event -> string -> string -> option (list string);
    listened : list Event -> t -> option bool -> list string;
    file_text : list Event -> string -> string;
    csv : list Event -> option string -> Frame;
    lower : string -> string;
    castframe : list Event -> t -> Frame -> outcome Frame;
    _current_file : string -> bool;
    str_self : t -> string;
    str_access : AccessType -> string;
    str_source : SourceType -> string
  }.

Record World : Type := mkWorld { self : t; log : list Event }.

Definition Run (A : Type) : Type := World -> World * outcome A.

Definition unit_ {A : Type} (a : A) : Run A := fun w => (w, Returns a).

Definition then_ {A B : Type} (m : Run A) (k : A -> Run B) : Run B :=
  fun w =>
    match m w with
    | (w', Returns a) => k a w'
    | (w', Raises e) => (w', Raises e)
    end.

Notation "x <- m ;;; k" := (then_ m (fun x => k))
  (at level 62, m at next level, right associativity).
Notation "m ;;; k" := (then_ m (fun _ => k))
  (at level 62, right associativity).

Definition raise {A : Type} (e : error) : Run A := fun w => (w, Raises e).

Definition lift {A : Type} (o : outcome A) : Run A := fun w => (w, o).

(** Read something off the object and the log. *)
Definition ask {A : Type} (f : list Event -> t -> A) : Run A :=
  fun w => (w, Returns (f (log w) (self w))).

Definition get_self : Run t := fun w => (w, Returns (self w)).

Definition set_self (new : t) : Run unit :=
  fun w => ({| self := new; log := log w |}, Returns tt).

(** A call to the outside: it raises, or it is made and logged. *)
Definition external (env : Services) (ev : Event) : Run unit :=
  fun w =>
    match raises env (log w) ev with
    | Some what => (w, Raises (ExternalError what))
    | None => ({| self := self w; log := (log w ++ [ev])%list |}, Returns tt)
    end.

Definition assert_ (b : bool) (msg : string) : Run unit :=
  if b then unit_ tt else raise (AssertionError msg).

Fixpoint for_each {A : Type} (xs : list A) (body : A -> Run unit)
  : Run unit :=
  match xs with
  | [] => unit_ tt
  | x :: rest => body x ;;; for_each rest body
  end.

Section Methods.

Variable env : Services.

(** [self.set_glue_dictionary()], defined elsewhere. *)
Definition set_glue_dictionary : Run unit :=
  external env SetGlueDictionary ;;;
  new <- ask (fetched env) ;;;
  set_self new.

Definition repair : Run unit :=
  set_glue_dictionary ;;;
  me <- get_self ;;;
  assert_ (truthy (glue_definition me))
          "You are trying to repair a non-defined TABLE!" ;;;
  kind <- ask (presto_table_type env) ;;;
  assert_ (match kind with VIRTUAL_VIEW => false | _ => true end)
          "You are trying to repair a non-defined TABLE!" ;;;
  external env
    (Execute ("MSCK REPAIR TABLE " ++ table_schema me ++ "."
              ++ table_name me ++ ";")).

Definition drop : Run unit :=
  me <- get_self ;;;
  assert_ (AccessType_eqb (access_type me) OVERWRITE)
          ("You are trying to drop a table (" ++ str_self env me
           ++ ") with table_type != " ++ str_access env OVERWRITE) ;;;
  if truthy (glue_definition me) then
    external env (TableDrop (table_name me)) ;;;
    me' <- get_self ;;;
    set_self (with_glue_definition me' (Dict None))
  else unit_ tt.

Definition list_objects : Run (list string) :=
  set_glue_dictionary ;;;
  kind <- ask (presto_table_type env) ;;;
  match kind with
  | VIRTUAL_VIEW | UNKNOWN => unit_ []
  | _ =>
      me <- get_self ;;;
      table <- lift (storage_descriptor (glue_definition me)) ;;;
      pair <- lift (bucket_and_prefix (Location table)) ;;;
      external env (ListObjects (fst pair) (snd pair)) ;;;
      objects <- ask (fun l _ => listed env l (fst pair) (snd pair)) ;;;
      match objects with
      | Some keys => unit_ keys
      | None => unit_ []
      end
  end.

(** The property [s3_table_path]. *)
Definition s3_table_path : Run (option string) :=
  set_glue_dictionary ;;;
  me <- get_self ;;;
  if truthy (glue_definition me) then
    table <- lift (storage_descriptor (glue_definition me)) ;;;
    ans <- lift (path_below_root (Location table) (table_bucket me)) ;;;
    unit_ (Some ans)
  else unit_ None.

(** The property [columns]. *)
Definition columns : Run (list string) :=
  set_glue_dictionary ;;;
  me <- get_self ;;;
  if truthy (glue_definition me) then
    table <- lift (storage_descriptor (glue_definition me)) ;;;
    unit_ (map Name (Columns table))
  else unit_ [].

Definition str_option (o : option string) : string :=
  match o with
  | Some x => x
  | None => "None"
  end.

Definition empty : Run unit :=
  set_glue_dictionary ;;;
  me <- get_self ;;;
  assert_ (AccessType_eqb (access_type me) OVERWRITE)
          ("You are trying to empty a table (" ++ str_self env me
           ++ ") with table_type != " ++ str_access env OVERWRITE) ;;;
  root <- ask (s3_root env) ;;;
  path <- s3_table_path ;;;
  external env
    (Print ("EMPTYING: " ++ table_schema me ++ "." ++ table_name me
            ++ " AT " ++ root ++ "/" ++ str_option path ++ " !")) ;;;
  keys <- list_objects ;;;
  for_each keys
    (fun key =>
       me' <- get_self ;;;
       external env (DeleteObject (table_bucket me') key)) ;;;
  set_glue_dictionary ;;;
  repair.

Definition purge : Run unit :=
  set_glue_dictionary ;;;
  me <- get_self ;;;
  if truthy (glue_definition me) then empty ;;; drop else unit_ tt.

(** [with open(self.source_path, "r") as sqlin: stmt = sqlin.read()] *)
Definition read_source : Run string :=
  me <- get_self ;;;
  match source_path me with
  | None => raise TypeError_
  | Some path =>
      external env (ReadFile path) ;;;
      ask (fun l _ => file_text env l path)
  end.

Definition build_from_sql : Run unit :=
  set_glue_dictionary ;;;
  me <- get_self ;;;
  assert_ (SourceType_eqb (source_type me) ATHENA)
          ("You are trying to build from SQL a table whose source_type != "
           ++ str_source env ATHENA) ;;;
  stmt <- read_source ;;;
  purge ;;;
  external env (Execute stmt) ;;;
  set_glue_dictionary ;;;
  repair.

Definition refresh_from_sql : Run unit :=
  set_glue_dictionary ;;;
  me <- get_self ;;;
  assert_ (SourceType_eqb (source_type me) ATHENA)
          ("You are trying to build from SQL a table whose source_type != "
           ++ str_source env ATHENA) ;;;
  stmt <- read_source ;;;
  external env (Execute stmt) ;;;
  set_glue_dictionary.

(** [_s3.copy] of one file into the table's folder. *)
Definition copy_in (source_bucket _file : string) : Run unit :=
  me <- get_self ;;;
  root <- ask (s3_root env) ;;;
  key <- lift (destination_key root (table_schema me) (table_name me)
                 _file) ;;;
  external env (Copy source_bucket _file (table_bucket me) key).

Definition populate_from_source (ymd : string) (files_are_parquet : bool)
  : Run unit :=
  set_glue_dictionary ;;;
  me <- get_self ;;;
  match source_type me with
  | HTTP =>
      external env (ReadCsv (source_path me)) ;;;
      data_frame <- ask (fun l _ => csv env l (source_path me)) ;;;
      cast <- ask (fun l me' =>
                     castframe env l me'
                       (map (fun c => (lower env (fst c), snd c))
                            data_frame)) ;;;
      data_frame' <- lift cast ;;;
      me' <- get_self ;;;
      table <- lift (storage_descriptor (glue_definition me')) ;;;
      external env
        (ToParquet (Location table ++ "/bulk.parquet") data_frame') ;;;
      set_glue_dictionary
  | PRODUCTION =>
      external env (Listen (Some files_are_parquet)) ;;;
      found <- ask (fun l me' =>
                      listened env l me' (Some files_are_parquet)) ;;;
      match filter (fun f => contains f ymd) found with
      | [] => unit_ tt
      | files =>
          empty ;;;
          for_each files (fun _file => copy_in "my-prod-bucket" _file)
      end
  | INCOMING | LEGACY =>
      external env (Listen None) ;;;
      found <- ask (fun l me' => listened env l me' None) ;;;
      match found with
      | [] => unit_ tt
      | files =>
          empty ;;;
          for_each files
            (fun _file =>
               me' <- get_self ;;;
               match source_type me' with
               | INCOMING =>
                   copy_in _DEFAULT_BUCKET _file ;;;
                   external env (DeleteObject (table_bucket me') _file)
               | LEGACY =>
                   if _current_file env _file
                   then copy_in "legacy-raw-data-qa" _file
                   else unit_ tt
               | _ => unit_ tt
               end)
      end
  | _ => unit_ tt
  end ;;;
  repair.

End Methods.

End AthenaTable.

(** ** Notions used to state what the methods do *)

(** No occurrence of [sep] in [a ++ s] starts inside [a]. *)
Fixpoint starts_nowhere (sep a s : string) : bool :=
  match a with
  | EmptyString => true
  | String c a' => negb (prefix sep (a ++ s)) && starts_nowhere sep a' s
  end.

(** The world after a [set_glue_dictionary] that returns. *)
Definition refreshed (env : AthenaTable.Services) (w : AthenaTable.World)
  : AthenaTable.World :=
  {| AthenaTable.self :=
       AthenaTable.fetched env
         (AthenaTable.log w ++ [AthenaTable.SetGlueDictionary])%list
         (AthenaTable.self w);
     AthenaTable.log :=
       (AthenaTable.log w ++ [AthenaTable.SetGlueDictionary])%list |}.

(** The object is up to date with the catalog and stays so: whenever it
    is asked, [set_glue_dictionary] leaves it as it is. *)
Definition up_to_date (env : AthenaTable.Services) (me : AthenaTable.t)
  : Prop :=
  forall l, AthenaTable.fetched env l me = me.

(** The [MSCK REPAIR TABLE] statement of [repair]. *)
Definition msck (me : AthenaTable.t) : AthenaTable.Event :=
  AthenaTable.Execute
    ("MSCK REPAIR TABLE " ++ AthenaTable.table_schema me ++ "."
     ++ AthenaTable.table_name me ++ ";").

Definition is_delete (ev : AthenaTable.Event) : bool :=
  match ev with
  | AthenaTable.DeleteObject _ _ => true
  | _ => false
  end.

(** One file handled by the INCOMING loop: copied in, then deleted. *)
Definition moved (root : string) (me : AthenaTable.t) (_file : string)
           (events : list AthenaTable.Event) : Prop :=
  exists key,
    destination_key root (AthenaTable.table_schema me) (AthenaTable.table_name me) _file
    = Returns key
    /\ events = [AthenaTable.Copy AthenaTable._DEFAULT_BUCKET _file (AthenaTable.table_bucket me) key;
                 AthenaTable.DeleteObject (AthenaTable.table_bucket me) _file].

(** One file copied in from a bucket. *)
Definition copied (source_bucket root : string) (me : AthenaTable.t) (_file : string)
           (event : AthenaTable.Event) : Prop :=
  exists key,
    destination_key root (AthenaTable.table_schema me) (AthenaTable.table_name me) _file
    = Returns key
    /\ event = AthenaTable.Copy source_bucket _file (AthenaTable.table_bucket me) key.

(** Services for trying the methods out: nothing raises, the catalog
    always answers with the object it is given, the table is an external
    table, S3 lists two objects, two files are waiting. *)
Definition quiet : AthenaTable.Services :=
  {| AthenaTable.fetched := fun _ me => me;
     AthenaTable.raises := fun _ _ => None;
     AthenaTable.presto_table_type :=
       fun _ _ => AthenaTable.OtherTable "EXTERNAL_TABLE";
     AthenaTable.s3_root := fun _ _ => "processed";
     AthenaTable.listed :=
       fun _ _ _ => Some ["processed/sales/loans/a.parquet";
                          "processed/sales/loans/b.parquet"];
     AthenaTable.listened :=
       fun _ _ _ => ["incoming/2020/01/31/x.parquet";
                     "incoming/2020/02/01/y.parquet"];
     AthenaTable.file_text := fun _ _ => "CREATE TABLE t AS SELECT 1";
     AthenaTable.csv := fun _ _ => [];
     AthenaTable.lower := fun name => name;
     AthenaTable.castframe := fun _ _ frame => Returns frame;
     AthenaTable._current_file := fun _ => true;
     AthenaTable.str_self := fun me => AthenaTable.table_name me;
     AthenaTable.str_access := fun _ => "AccessType.OVERWRITE";
     AthenaTable.str_source := fun _ => "SourceType.ATHENA" |}.

Definition loans (access : AthenaTable.AccessType)
           (source : AthenaTable.SourceType) : AthenaTable.t :=
  {| AthenaTable.table_schema := "sales";
     AthenaTable.table_name := "loans";
     AthenaTable.access_type := access;
     AthenaTable.source_type := source;
     AthenaTable.source_path := Some "loans.sql";
     AthenaTable.table_bucket := "my_default_bucket";
     AthenaTable.glue_definition :=
       AthenaTable.Dict
         (Some (AthenaTable.mkGlueTable
                  "s3://my_default_bucket/processed/sales/loans"
                  [mkColumn "zip_cd" "string"]));
     AthenaTable.table_type := AthenaTable.UNKNOWN |}.

(** A table that sits in another bucket than its [table_bucket]. *)
Definition stray : AthenaTable.t :=
  {| AthenaTable.table_schema := "sales";
     AthenaTable.table_name := "loans";
     AthenaTable.access_type := AthenaTable.OVERWRITE;
     AthenaTable.source_type := AthenaTable.INCOMING;
     AthenaTable.source_path := None;
     AthenaTable.table_bucket := "my_default_bucket";
     AthenaTable.glue_definition :=
       AthenaTable.Dict
         (Some (AthenaTable.mkGlueTable
                  "s3://elsewhere/processed/sales/loans" []));
     AthenaTable.table_type := AthenaTable.UNKNOWN |}.

Definition is_create (ev : AthenaTable.Event) : bool :=
  match ev with
  | AthenaTable.Execute stmt => String.eqb stmt "CREATE TABLE t AS SELECT 1"
  | _ => false
  end.

(** The quiet services with a catalog that shows the table again once the
    CREATE TABLE statement has been executed. *)
Definition rebuilding : AthenaTable.Services :=
  {| AthenaTable.fetched :=
       fun l me =>
         if existsb is_create l
         then AthenaTable.with_glue_definition me
                (AthenaTable.glue_definition
                   (loans AthenaTable.OVERWRITE AthenaTable.ATHENA))
         else me;
     AthenaTable.raises := AthenaTable.raises quiet;
     AthenaTable.presto_table_type := AthenaTable.presto_table_type quiet;
     AthenaTable.s3_root := AthenaTable.s3_root quiet;
     AthenaTable.listed := AthenaTable.listed quiet;
     AthenaTable.listened := AthenaTable.listened quiet;
     AthenaTable.file_text := AthenaTable.file_text quiet;
     AthenaTable.csv := AthenaTable.csv quiet;
     AthenaTable.lower := AthenaTable.lower quiet;
     AthenaTable.castframe := AthenaTable.castframe quiet;
     AthenaTable._current_file := AthenaTable._current_file quiet;
     AthenaTable.str_self := AthenaTable.str_self quiet;
     AthenaTable.str_access := AthenaTable.str_access quiet;
     AthenaTable.str_source := AthenaTable.str_source quiet |}.

(** A world with an empty log. *)
Definition fresh (me : AthenaTable.t) : AthenaTable.World :=
  {| AthenaTable.self := me; AthenaTable.log := [] |}.

(** * Facts about the building blocks *)

(** ** Strings *)

Lemma prefix_append (p s : string) :
  prefix p s = true <-> exists q, s = p ++ q.
Proof.
  revert s; induction p as [|a p IH]; intros s; simpl.
  - destruct s; split; eauto.
  - destruct s as [|b s].
    + split; [discriminate | intros [q Hq]; discriminate].
    + simpl. destruct (Ascii.ascii_dec a b) as [->|Hab].
      * rewrite IH. split; intros [q Hq]; exists q; congruence.
      * split; [discriminate | intros [q Hq]; congruence].
Qed.

Lemma endswith_append (s suffix : string) :
  endswith s suffix = true <-> exists p, s = p ++ suffix.
Proof.
  induction s as [|a s IH]; cbn [endswith].
  - rewrite orb_false_r, String.eqb_eq. split.
    + intros <-. now exists EmptyString.
    + intros [[|b p] Hp]; simpl in Hp; [auto | discriminate].
  - rewrite orb_true_iff, String.eqb_eq, IH. split.
    + intros [<-|[p ->]]; [now exists EmptyString | now exists (String a p)].
    + intros [[|b p] Hp]; simpl in Hp; [now left | right].
      injection Hp as _ ->. now exists p.
Qed.

Lemma contains_append (s sub : string) :
  contains s sub = true <-> exists p q, s = p ++ sub ++ q.
Proof.
  induction s as [|a s IH]; cbn [contains].
  - rewrite orb_false_r, prefix_append. split.
    + intros [q Hq]. now exists EmptyString, q.
    + intros [[|b p] [q Hq]]; simpl in Hq; [now exists q | discriminate].
  - rewrite orb_true_iff, prefix_append, IH. split.
    + intros [[q Hq]|[p [q ->]]].
      * now exists EmptyString, q.
      * now exists (String a p), q.
    + intros [[|b p] [q Hq]]; simpl in Hq.
      * left. now exists q.
      * right. injection Hq as _ ->. now exists p, q.
Qed.

Lemma length_append (s t : string) :
  String.length (s ++ t) = String.length s + String.length t.
Proof. induction s; simpl; congruence. Qed.

Lemma append_assoc (s t u : string) : (s ++ t) ++ u = s ++ t ++ u.
Proof. induction s; simpl; congruence. Qed.

Lemma length_zeros (n : nat) : String.length (zeros n) = n.
Proof. induction n; simpl; congruence. Qed.

Lemma zeros_add (m n : nat) : zeros (m + n) = zeros m ++ zeros n.
Proof. induction m; simpl; congruence. Qed.

(** ** Padding *)

Lemma zfill_wide (v : value) (w : nat) :
  w <= String.length (str v) -> zfill v w = VStr (str v).
Proof.
  intros H. unfold zfill. now replace (w - String.length (str v)) with 0 by lia.
Qed.

Lemma zfill_length (v : value) (w : nat) :
  String.length (str (zfill v w)) = Nat.max w (String.length (str v)).
Proof. simpl. rewrite length_append, length_zeros. lia. Qed.

Lemma zfill_zfill (v : value) (a b : nat) :
  zfill (zfill v a) b = zfill v (Nat.max a b).
Proof.
  unfold zfill at 1. rewrite zfill_length. unfold zfill. simpl str.
  rewrite <- append_assoc, <- zeros_add. do 3 f_equal. lia.
Qed.

Lemma value_eqb_eq (v w : value) : value_eqb v w = true <-> v = w.
Proof.
  destruct v, w; simpl; try (split; [discriminate | congruence]).
  - rewrite Z.eqb_eq. split; congruence.
  - rewrite String.eqb_eq. split; congruence.
  - rewrite String.eqb_eq. split; congruence.
Qed.

(** ["UNK"] is already wider than 2, so the special case of the last rule
    agrees with plain padding. *)
Lemma unk_rule_zfill (v : value) : unk_rule v = zfill v 2.
Proof.
  unfold unk_rule. destruct (value_eqb v (VStr "UNK")) eqn:E; [|reflexivity].
  apply value_eqb_eq in E. now subst.
Qed.

(** ** [series.apply] *)

Lemma apply_from_length f (xs : Series) :
  forall row ys, apply_from row f xs = Ok ys -> List.length ys = List.length xs.
Proof.
  induction xs as [|x xs IH]; simpl; intros row ys H.
  - now inversion H.
  - destruct (f row x); [|discriminate].
    destruct (apply_from (S row) f xs) eqn:E; [|discriminate].
    inversion H; subst. simpl. f_equal. eauto.
Qed.

Lemma apply_from_pure (h : value -> value) (xs : Series) :
  forall row, apply_from row (fun _ v => Ok (h v)) xs = Ok (map h xs).
Proof.
  induction xs as [|x xs IH]; simpl; intros row; [reflexivity|].
  now rewrite IH.
Qed.

Lemma apply_from_fixed f (xs : Series) :
  Forall (fun v => forall row, f row v = Ok v) xs ->
  forall row, apply_from row f xs = Ok xs.
Proof.
  induction 1 as [|x xs Hx _ IH]; simpl; intros row; [reflexivity|].
  now rewrite Hx, IH.
Qed.

Lemma apply_from_Forall2 f (xs : Series) :
  forall row ys,
    apply_from row f xs = Ok ys ->
    Forall2 (fun x y => exists r, f r x = Ok y) xs ys.
Proof.
  induction xs as [|x xs IH]; simpl; intros row ys H.
  - inversion H. constructor.
  - destruct (f row x) eqn:Ex; [|discriminate].
    destruct (apply_from (S row) f xs) eqn:E; [|discriminate].
    inversion H; subst. constructor; eauto.
Qed.

(** The first row on which [f] raises decides the exception. *)
Lemma apply_from_raise f (xs : Series) :
  forall row e,
    apply_from row f xs = Raise e <->
    exists i x, nth_error xs i = Some x /\ f (row + i) x = Raise e
                /\ forall j y, j < i -> nth_error xs j = Some y ->
                               exists z, f (row + j) y = Ok z.
Proof.
  induction xs as [|x xs IH]; simpl; intros row e.
  - split; [discriminate|]. intros [[|i] [y [H _]]]; discriminate.
  - destruct (f row x) eqn:Ex.
    + destruct (apply_from (S row) f xs) eqn:E.
      * split; [discriminate|]. intros [[|i] [y [Hn [Hr Hb]]]].
        -- simpl in Hn. inversion Hn; subst. rewrite Nat.add_0_r in Hr. congruence.
        -- assert (apply_from (S row) f xs = Raise e) as Habs; [|congruence].
           apply IH. exists i, y. simpl in Hn.
           replace (S row + i) with (row + S i) by lia. repeat split; auto.
           intros j z Hj Hz. replace (S row + j) with (row + S j) by lia.
           apply (Hb (S j) z); [lia | exact Hz].
      * split.
        -- intros H. inversion H; subst. apply IH in E as [i [y [Hn [Hr Hb]]]].
           exists (S i), y. simpl.
           replace (row + S i) with (S row + i) by lia. repeat split; auto.
           intros [|j] z Hj Hz; simpl in Hz.
           ++ inversion Hz; subst. rewrite Nat.add_0_r. eauto.
           ++ replace (row + S j) with (S row + j) by lia.
              apply Hb; [lia | exact Hz].
        -- intros [[|i] [y [Hn [Hr Hb]]]].
           ++ simpl in Hn. inversion Hn; subst. rewrite Nat.add_0_r in Hr. congruence.
           ++ f_equal. assert (apply_from (S row) f xs = Raise e) as Habs.
              { apply IH. exists i, y. simpl in Hn.
                replace (S row + i) with (row + S i) by lia. repeat split; auto.
                intros j z Hj Hz. replace (S row + j) with (row + S j) by lia.
                apply (Hb (S j) z); [lia | exact Hz]. }
              congruence.
    + split.
      * intros H. inversion H; subst. exists 0, x. simpl.
        rewrite Nat.add_0_r. repeat split; auto. intros j y Hj. lia.
      * intros [[|i] [y [Hn [Hr Hb]]]].
        -- simpl in Hn. inversion Hn; subst. rewrite Nat.add_0_r in Hr. congruence.
        -- destruct (Hb 0 x) as [z Hz]; [lia | reflexivity |].
           rewrite Nat.add_0_r in Hz. congruence.
Qed.

(** ** Frames *)

Lemma in_columns_getitem (frame : Frame) (c : string) :
  in_columns c frame = true <-> exists xs, getitem frame c = Some xs.
Proof.
  unfold in_columns, columns.
  induction frame as [|[name xs] rest IH]; simpl.
  - split; [discriminate | intros [xs H]; discriminate].
  - destruct (String.eqb c name); simpl; [split; eauto | exact IH].
Qed.

Lemma in_columns_false (frame : Frame) (c : string) :
  in_columns c frame = false <-> getitem frame c = None.
Proof.
  pose proof (in_columns_getitem frame c) as [H1 H2].
  destruct (in_columns c frame), (getitem frame c) as [xs|];
    split; intros H; try reflexivity; try discriminate.
  - destruct (H1 eq_refl) as [ys Hys]. discriminate.
  - assert (false = true) by eauto. discriminate.
Qed.

Lemma getitem_setitem_same (frame : Frame) (c : string) (ys : Series) :
  getitem (setitem frame c ys) c = Some ys.
Proof.
  induction frame as [|[name xs] rest IH]; simpl.
  - now rewrite String.eqb_refl.
  - destruct (String.eqb c name) eqn:E; simpl; now rewrite E.
Qed.

Lemma getitem_setitem_other (frame : Frame) (c c' : string) (ys : Series) :
  c' <> c -> getitem (setitem frame c ys) c' = getitem frame c'.
Proof.
  intros Hne. induction frame as [|[name xs] rest IH]; simpl.
  - apply String.eqb_neq in Hne. now rewrite Hne.
  - destruct (String.eqb c name) eqn:E; simpl.
    + apply String.eqb_eq in E. subst name.
      apply String.eqb_neq in Hne. now rewrite Hne.
    + now rewrite IH.
Qed.

Lemma setitem_same_value (frame : Frame) (c : string) (xs : Series) :
  getitem frame c = Some xs -> setitem frame c xs = frame.
Proof.
  induction frame as [|[name zs] rest IH]; simpl; [discriminate|].
  destruct (String.eqb c name); intros H.
  - now inversion H.
  - now rewrite IH.
Qed.

Lemma setitem_setitem (frame : Frame) (c : string) (ys zs : Series) :
  in_columns c frame = true ->
  setitem (setitem frame c ys) c zs = setitem frame c zs.
Proof.
  unfold in_columns, columns.
  induction frame as [|[name xs] rest IH]; simpl; [discriminate|].
  destruct (String.eqb c name) eqn:E; simpl; rewrite E; [reflexivity|].
  intros H. now rewrite IH.
Qed.

Lemma shape_setitem (frame : Frame) (c : string) (xs ys : Series) :
  getitem frame c = Some xs -> List.length ys = List.length xs ->
  shape (setitem frame c ys) = shape frame.
Proof.
  intros Hget Hlen. induction frame as [|[name zs] rest IH]; simpl in *.
  - discriminate.
  - destruct (String.eqb c name); simpl.
    + inversion Hget; subst. now rewrite Hlen.
    + now rewrite IH.
Qed.

Lemma columns_shape (frame : Frame) : columns frame = map fst (shape frame).
Proof. unfold columns, shape. rewrite map_map. reflexivity. Qed.

Lemma in_columns_shape (frame frame' : Frame) (c : string) :
  shape frame' = shape frame -> in_columns c frame' = in_columns c frame.
Proof. unfold in_columns. rewrite !columns_shape. now intros ->. Qed.

Lemma same_but_refl (c : string) (frame : Frame) : same_but c frame frame.
Proof. split; auto. Qed.

Lemma same_but_trans (c : string) (f1 f2 f3 : Frame) :
  same_but c f1 f2 -> same_but c f2 f3 -> same_but c f1 f3.
Proof.
  intros [S1 G1] [S2 G2]. split; [congruence|].
  intros c' Hc. rewrite G2, G1; auto.
Qed.

(** ** Statements that rewrite one column *)

Lemma confined_ret {A : Type} (c : string) (a : A) : confined c (ret a).
Proof. intros f f' r H. inversion H. apply same_but_refl. Qed.

Lemma confined_bind {A B : Type} (c : string) (m : M A) (k : A -> M B) :
  confined c m -> (forall a, confined c (k a)) -> confined c (bind m k).
Proof.
  intros Hm Hk f f' r H. unfold bind in H.
  destruct (m f) as [f1 [a|e]] eqn:E.
  - eapply same_but_trans; [eapply Hm; eauto | eapply Hk; eauto].
  - inversion H; subst. eapply Hm; eauto.
Qed.

Lemma confined_when (c : string) (b : bool) (m : M unit) :
  confined c m -> confined c (when b m).
Proof. destruct b; simpl; auto using confined_ret. Qed.

Lemma confined_update (c : string) (g : Series -> result Series) :
  (forall xs ys, g xs = Ok ys -> List.length ys = List.length xs) ->
  confined c (update c g).
Proof.
  intros Hg f f' r H. unfold update in H.
  destruct (getitem f c) as [xs|] eqn:Eg.
  - destruct (g xs) as [ys|e] eqn:Ex; inversion H; subst.
    + split.
      * eapply shape_setitem; eauto.
      * intros c' Hc. now apply getitem_setitem_other.
    + apply same_but_refl.
  - inversion H. apply same_but_refl.
Qed.

Lemma confined_apply (c : string) (f : nat -> value -> result value) :
  confined c (update c (apply f)).
Proof. apply confined_update. intros xs ys. apply apply_from_length. Qed.

Lemma update_ok (c : string) g (frame : Frame) (xs ys : Series) :
  getitem frame c = Some xs -> g xs = Ok ys ->
  update c g frame = (setitem frame c ys, Ok tt).
Proof. intros H1 H2. unfold update. now rewrite H1, H2. Qed.

Lemma update_raise (c : string) g (frame : Frame) (xs : Series) (e : exn) :
  getitem frame c = Some xs -> g xs = Raise e ->
  update c g frame = (frame, Raise e).
Proof. intros H1 H2. unfold update. now rewrite H1, H2. Qed.

(** A statement whose function fixes the column it finds leaves the frame
    as it is. *)
Lemma update_fixed (c : string) g (frame : Frame) (xs : Series) :
  getitem frame c = Some xs -> g xs = Ok xs ->
  update c g frame = (frame, Ok tt).
Proof.
  intros H1 H2. rewrite (update_ok _ _ _ _ _ H1 H2).
  now rewrite setitem_same_value.
Qed.

Lemma confined_padding_steps (c : string) : confined c (padding_steps c).
Proof.
  unfold padding_steps, zip_step, cnty_step, sale_regn_step, msa_step,
    tract_step, customer_step, unk_step.
  repeat (apply confined_bind; [|intros _]);
    apply confined_when, confined_apply.
Qed.

Section CastDataframeFacts.

Variable parse_datetime : value -> option string.
Variable cast_value : string -> value -> option value.

Abbreviation cast_column := (cast_column parse_datetime cast_value).
Abbreviation for_columns := (for_columns parse_datetime cast_value).
Abbreviation cast_dataframe := (cast_dataframe parse_datetime cast_value).
Abbreviation temporal_step := (temporal_step parse_datetime).
Abbreviation cast_step := (cast_step cast_value).
Abbreviation to_datetime := (to_datetime parse_datetime).
Abbreviation cast_series_type := (cast_series_type cast_value).

Lemma confined_temporal_step (c : string) : confined c (temporal_step c).
Proof. apply confined_when, confined_apply. Qed.

Lemma confined_cast_step (column : Column) :
  confined (Name column) (cast_step column).
Proof. apply confined_apply. Qed.

Lemma confined_cast_column (column : Column) :
  confined (Name column) (cast_column column).
Proof.
  assert (confined (Name column)
            (temporal_step (Name column) ;; padding_steps (Name column) ;;
             cast_step column)) as Hc.
  { apply confined_bind; [apply confined_temporal_step | intros _].
    apply confined_bind; [apply confined_padding_steps | intros _].
    apply confined_cast_step. }
  intros f f' r H. unfold cast_column in H.
  destruct (in_columns (Name column) f).
  - exact (Hc _ _ _ H).
  - inversion H. apply same_but_refl.
Qed.

(** An entry whose name the frame does not have is passed over. *)
Lemma cast_column_absent (column : Column) (frame : Frame) :
  in_columns (Name column) frame = false ->
  cast_column column frame = (frame, Ok tt).
Proof. intros H. unfold cast_column. now rewrite H. Qed.

(** The loop keeps the row counts, and every column that no entry names. *)
Lemma for_columns_frame (cols : list Column) :
  forall frame frame' r,
    for_columns cols frame = (frame', r) ->
    shape frame' = shape frame
    /\ forall c, ~ In c (map Name cols) -> getitem frame' c = getitem frame c.
Proof.
  induction cols as [|column rest IH]; simpl; intros f f' r H.
  - inversion H. auto.
  - unfold bind in H.
    destruct (cast_column column f) as [f1 [[]|e]] eqn:E;
      apply confined_cast_column in E as [S1 G1].
    + apply IH in H as [S2 G2]. split; [congruence|].
      intros c Hc. rewrite G2, G1; auto.
    + inversion H; subst. split; auto.
Qed.

Lemma cast_dataframe_for_columns (cols : list Column) (frame : Frame) :
  cast_dataframe cols frame =
    match for_columns cols frame with
    | (frame', Ok _) => (frame', Ok frame')
    | (frame', Raise e) => (frame', Raise e)
    end.
Proof. reflexivity. Qed.

(** The loop never changes which names the frame has, so the entries it
    passes over are those absent from the frame it was given. *)
Lemma for_columns_filter (cols : list Column) :
  forall frame0 frame,
    shape frame = shape frame0 ->
    for_columns
      (filter (fun column => in_columns (Name column) frame0) cols) frame
    = for_columns cols frame.
Proof.
  induction cols as [|column rest IH]; intros f0 f Hs; simpl; [reflexivity|].
  destruct (in_columns (Name column) f0) eqn:E; simpl; unfold bind.
  - destruct (cast_column column f) as [f1 [[]|e]] eqn:Ec; [|reflexivity].
    apply IH. apply confined_cast_column in Ec as [S1 _]. congruence.
  - rewrite cast_column_absent by (now rewrite (in_columns_shape _ _ _ Hs)).
    now apply IH.
Qed.

(** * The claims *)

(** C7.  Schema entries whose name the frame does not have are skipped
    without error: such an entry returns at once with the frame as it was,
    and dropping all of them from the schema changes neither the frame the
    call leaves behind nor what it returns or raises.  Columns of the frame
    named by no schema entry hold the same values after the call as
    before, whether it returns or raises. *)
Theorem C7_absent_entries_skipped_other_columns_untouched
        (cols : list Column) (frame : Frame) :
  (forall column,
      in_columns (Name column) frame = false ->
      cast_column column frame = (frame, Ok tt))
  /\ cast_dataframe
       (filter (fun column => in_columns (Name column) frame) cols) frame
     = cast_dataframe cols frame
  /\ (forall c,
         ~ In c (map Name cols) ->
         getitem (fst (cast_dataframe cols frame)) c = getitem frame c).
Proof.
  split; [|split].
  - intros column. apply cast_column_absent.
  - rewrite !cast_dataframe_for_columns.
    now rewrite (for_columns_filter cols frame frame).
  - intros c Hc. rewrite cast_dataframe_for_columns.
    destruct (for_columns cols frame) as [f' r] eqn:E.
    apply for_columns_frame in E as [_ G].
    destruct r; simpl; auto.
Qed.

(** C10.  When cast_dataframe returns normally, the frame it returns is the
    caller's frame; it has the same column names in the same order as the
    frame that was passed in, and every column has as many rows as before:
    no row or column is added, dropped or reordered. *)
Theorem C10_shape_preserved
        (cols : list Column) (frame frame' out : Frame) :
  cast_dataframe cols frame = (frame', Ok out) ->
  out = frame'
  /\ columns frame' = columns frame
  /\ map (fun c => List.length (snd c)) frame'
     = map (fun c => List.length (snd c)) frame
  /\ shape frame' = shape frame.
Proof.
  rewrite cast_dataframe_for_columns.
  destruct (for_columns cols frame) as [f' [[]|e]] eqn:E; [|discriminate].
  intros H. inversion H; subst. apply for_columns_frame in E as [S _].
  repeat split; auto.
  - now rewrite !columns_shape, S.
  - assert (forall f : Frame,
               map (fun c => List.length (snd c)) f = map snd (shape f)) as L.
    { intros f. unfold shape. now rewrite map_map. }
    now rewrite !L, S.
Qed.


(** ** Temporal coercion *)

Lemma has_temporal_suffix_iff (col : string) :
  has_temporal_suffix col = true <->
  exists p suffix,
    In suffix ["date"; "_dt"; "_ts"; "_date_time"; "_timestamp"]
    /\ col = p ++ suffix.
Proof.
  unfold has_temporal_suffix. rewrite !orb_true_iff, !endswith_append. split.
  - intros [[[[[p H]|[p H]]|[p H]]|[p H]]|[p H]];
      exists p; eexists; (split; [|exact H]); simpl; auto 6.
  - intros [p [suffix [Hin H]]]. simpl in Hin.
    destruct Hin as [<-|[<-|[<-|[<-|[<-|[]]]]]]; eauto 7.
Qed.

Lemma to_datetime_ok (xs : Series) (isos : list string) :
  map parse_datetime xs = map Some isos ->
  to_datetime xs = Ok (map VTime isos).
Proof.
  unfold to_datetime, apply. generalize 0 as row.
  revert isos; induction xs as [|x xs IH]; intros [|iso isos] row H;
    simpl in *; try discriminate; [reflexivity|].
  inversion H as [[Hx Hxs]]. rewrite Hx. now rewrite (IH isos).
Qed.

(** [to_datetime] fails fast: it raises as soon as some value does not
    parse, naming the first such row. *)
Lemma to_datetime_raise (xs : Series) :
  Exists (fun x => parse_datetime x = None) xs ->
  exists i x,
    nth_error xs i = Some x /\ parse_datetime x = None
    /\ (forall j y, j < i -> nth_error xs j = Some y ->
                    parse_datetime y <> None)
    /\ to_datetime xs = Raise (ParseError i x).
Proof.
  intros Hex. unfold to_datetime, apply.
  destruct (apply_from 0
              (fun row v => match parse_datetime v with
                            | Some iso => Ok (VTime iso)
                            | None => Raise (ParseError row v)
                            end) xs) as [ys|e] eqn:E.
  - exfalso. apply apply_from_Forall2 in E.
    induction E as [|x y xs ys [r Hr] _ IH]; inversion Hex; subst; auto.
    match goal with H : parse_datetime x = None |- _ => rewrite H in Hr end.
    discriminate.
  - apply apply_from_raise in E as [i [x [Hn [Hr Hb]]]]. simpl in Hr.
    destruct (parse_datetime x) eqn:Ex; [discriminate|].
    inversion Hr; subst. exists i, x. repeat split; auto.
    intros j y Hj Hy Hnone. destruct (Hb j y Hj Hy) as [z Hz].
    simpl in Hz. rewrite Hnone in Hz. discriminate.
Qed.


End CastDataframeFacts.

(** ** The padding statements against the padding table *)

Lemma padding_steps_chain (col : string) (frame : Frame) :
  padding_steps col frame = chain col padding_table frame.
Proof.
  unfold padding_steps, zip_step, cnty_step, sale_regn_step, msa_step,
    tract_step, customer_step, unk_step, tract_rule, unk_rule.
  cbn [chain padding_table matches existsb substrings].
  rewrite !orb_false_r.
  unfold rule_transform. cbn [special_case width]. unfold bind.
  repeat (match goal with
          | |- context [when ?b ?m ?f] =>
              destruct (when b m f) as [? [[]|?]]; try reflexivity
          end).
Qed.

Lemma chain_ok (col : string) (rules : list rule) :
  forall frame xs ys,
    getitem frame col = Some xs ->
    chain_series (filter (matches col) rules) xs = Ok ys ->
    chain col rules frame = (setitem frame col ys, Ok tt).
Proof.
  induction rules as [|r rest IH]; intros f xs ys Hget Hrun; simpl in *.
  - inversion Hrun; subst. unfold ret. now rewrite setitem_same_value.
  - unfold bind. destruct (matches col r); simpl in *.
    + destruct (apply (rule_transform r) xs) as [zs|e] eqn:E; [|discriminate].
      rewrite (update_ok _ _ _ _ _ Hget E).
      rewrite (IH _ zs ys); auto using getitem_setitem_same.
      rewrite setitem_setitem; auto. apply in_columns_getitem; eauto.
    + unfold ret. now apply (IH _ xs).
Qed.

Lemma chain_raise (col : string) (rules : list rule) :
  forall frame xs e,
    getitem frame col = Some xs ->
    chain_series (filter (matches col) rules) xs = Raise e ->
    exists frame', chain col rules frame = (frame', Raise e).
Proof.
  induction rules as [|r rest IH]; intros f xs e Hget Hrun; simpl in *.
  - discriminate.
  - unfold bind. destruct (matches col r); simpl in *.
    + destruct (apply (rule_transform r) xs) as [zs|e'] eqn:E.
      * rewrite (update_ok _ _ _ _ _ Hget E).
        apply (IH _ zs); auto using getitem_setitem_same.
      * inversion Hrun; subst. rewrite (update_raise _ _ _ _ _ Hget E). eauto.
    + unfold ret. now apply (IH _ xs).
Qed.

(** C8.  The seven padding statements of the method are the rows of the
    padding table run in table order, each under its own test of the name
    and none excluding another.  On a column of the frame, the rules whose
    substring the name contains are applied one after the other in table
    order, the series left by one being the input of the next; the column
    ends up holding the output of that chain (or the chain's exception is
    raised). *)
Theorem C8_matching_rules_chain_in_table_order
        (col : string) (frame : Frame) (xs : Series) :
  getitem frame col = Some xs ->
  padding_steps col frame = chain col padding_table frame
  /\ (forall ys,
         chain_series (filter (matches col) padding_table) xs = Ok ys ->
         padding_steps col frame = (setitem frame col ys, Ok tt))
  /\ (forall e,
         chain_series (filter (matches col) padding_table) xs = Raise e ->
         exists frame', padding_steps col frame = (frame', Raise e)).
Proof.
  intros Hget. split; [apply padding_steps_chain | split].
  - intros ys H. rewrite padding_steps_chain. now apply (chain_ok _ _ _ xs).
  - intros e H. rewrite padding_steps_chain. now apply (chain_raise _ _ _ xs).
Qed.

(** ** Names that match padding rules other than the census-tract one *)

Lemma apply_from_ext f g (xs : Series) :
  (forall row v, f row v = g row v) ->
  forall row, apply_from row f xs = apply_from row g xs.
Proof.
  intros H. induction xs as [|x xs IH]; simpl; intros row; [reflexivity|].
  now rewrite H, IH.
Qed.

Lemma rule_transform_pads (r : rule) (row : nat) (v : value) :
  pads_only r -> rule_transform r row v = Ok (zfill v (width r)).
Proof.
  unfold pads_only, rule_transform. destruct (special_case r); intros H.
  - reflexivity.
  - contradiction.
  - destruct (value_eqb v (VStr "UNK")) eqn:E; [|reflexivity].
    apply value_eqb_eq in E. subst v. now rewrite zfill_wide.
Qed.

Lemma apply_rule_pads (r : rule) (xs : Series) :
  pads_only r ->
  apply (rule_transform r) xs = Ok (map (fun v => zfill v (width r)) xs).
Proof.
  intros H. unfold apply.
  rewrite (apply_from_ext _ (fun _ v => Ok (zfill v (width r))))
    by (intros; now apply rule_transform_pads).
  apply apply_from_pure.
Qed.

Lemma chain_series_padded (col : string) (rules : list rule) :
  forall a xs,
    (forall r, In r rules -> matches col r = true -> pads_only r) ->
    chain_series (filter (matches col) rules) (map (fun v => zfill v a) xs)
    = Ok (map (fun v => zfill v (Nat.max a (widest col rules))) xs).
Proof.
  induction rules as [|r rest IH]; intros a xs Hp; simpl.
  - now rewrite Nat.max_0_r.
  - destruct (matches col r) eqn:E; simpl.
    + rewrite apply_rule_pads by (apply Hp; simpl; auto).
      rewrite map_map.
      rewrite (map_ext _ (fun v => zfill v (Nat.max a (width r))))
        by (intros; apply zfill_zfill).
      rewrite IH by (intros; apply Hp; simpl; auto).
      now rewrite Nat.max_assoc.
    + apply IH. intros; apply Hp; simpl; auto.
Qed.

Lemma chain_series_pads (col : string) (rules : list rule) :
  forall xs,
    (forall r, In r rules -> matches col r = true -> pads_only r) ->
    existsb (matches col) rules = true ->
    chain_series (filter (matches col) rules) xs
    = Ok (map (fun v => zfill v (widest col rules)) xs).
Proof.
  induction rules as [|r rest IH]; intros xs Hp Hex; simpl in *.
  - discriminate.
  - destruct (matches col r) eqn:E; simpl in *.
    + rewrite apply_rule_pads by (apply Hp; auto).
      apply chain_series_padded. intros; apply Hp; auto.
    + apply IH; auto.
Qed.

Lemma widest_bounds (col : string) (rules : list rule) :
  (forall r, In r rules -> matches col r = true ->
             width r <= widest col rules)
  /\ (existsb (matches col) rules = true ->
      exists r, In r rules /\ matches col r = true
                /\ widest col rules = width r).
Proof.
  induction rules as [|r rest [IH1 IH2]]; simpl.
  - split; [intros r [] | discriminate].
  - split.
    + intros r' [<-|Hin] Hm.
      * rewrite Hm. lia.
      * specialize (IH1 r' Hin Hm). destruct (matches col r); lia.
    + destruct (matches col r) eqn:E; simpl.
      * intros _. destruct (existsb (matches col) rest) eqn:Ex.
        -- destruct (IH2 eq_refl) as [r' [Hin [Hm Hw]]].
           destruct (Nat.le_gt_cases (width r) (widest col rest)).
           ++ exists r'. repeat split; auto. lia.
           ++ exists r. repeat split; auto. lia.
        -- exists r. repeat split; auto.
           assert (widest col rest = 0) as ->; [|lia].
           clear -Ex. induction rest as [|r0 rest IH]; simpl in *; auto.
           apply orb_false_iff in Ex as [-> Ex]. auto.
      * intros Hex. destruct (IH2 Hex) as [r' [Hin [Hm Hw]]].
        exists r'. auto.
Qed.

Lemma no_tract_pads_only (col : string) :
  contains col "prim_census_tract_cd" = false ->
  forall r, In r padding_table -> matches col r = true -> pads_only r.
Proof.
  intros Ht r Hin Hm. unfold padding_table in Hin. simpl in Hin.
  destruct Hin as [<-|[<-|[<-|[<-|[<-|[<-|[<-|[]]]]]]]];
    unfold pads_only; simpl; auto.
  unfold matches in Hm. simpl in Hm. rewrite Ht in Hm. discriminate.
Qed.

(** C3, as stated, fails on the census-tract rule.  The value 123456 of a
    column named prim_census_tract_cd is already six digits wide, so the
    claim has it left unchanged (padding it to width 6 gives "123456");
    the method stores "12345600", the padded product by 100. *)
Lemma C3_counterexample_tract_value_at_width_is_changed :
  contains "prim_census_tract_cd" "prim_census_tract_cd" = true
  /\ 6 <= String.length (str (VInt 123456))
  /\ zfill (VInt 123456) 6 = VStr "123456"
  /\ padding_steps "prim_census_tract_cd"
       [("prim_census_tract_cd", [VInt 123456])]
     = ([("prim_census_tract_cd", [VStr "12345600"])], Ok tt)
  /\ VStr "12345600" <> zfill (VInt 123456) 6.
Proof.
  repeat split; try reflexivity.
  vm_compute. discriminate.
Qed.

(** C3, amended.  For every column whose name contains a padding substring
    other than prim_census_tract_cd, the padding statements replace each
    value of the column by its string form left-padded with "0" to the
    width of the rule the name matches -- 5 for zip_cd and cbsa_cd, 3 for
    cnty_cd, 2 for sale_regn_cd, 4 for prim_msa_cd, 10 for customer_id and
    _cust_id, 2 for lnprps_cd and uw_desgntn_cd -- and to the widest of
    them when the name matches several.  A string already at or beyond
    the width is left as it is, never truncated.  (Under
    prim_census_tract_cd the value is multiplied by 100 first: C4.) *)
Theorem C3_padding_to_rule_width
        (col : string) (frame : Frame) (xs : Series) :
  getitem frame col = Some xs ->
  matches_padding col = true ->
  contains col "prim_census_tract_cd" = false ->
  padding_steps col frame
  = (setitem frame col (map (fun v => zfill v (width_of col)) xs), Ok tt)
  /\ (forall r, In r padding_table -> matches col r = true ->
                width r <= width_of col)
  /\ (exists r, In r padding_table /\ matches col r = true
                /\ width_of col = width r)
  /\ (forall v w,
         zfill v w = VStr (zeros (w - String.length (str v)) ++ str v)
         /\ String.length (str (zfill v w))
            = Nat.max w (String.length (str v))
         /\ (w <= String.length (str v) -> zfill v w = VStr (str v))).
Proof.
  intros Hget Hm Ht.
  pose proof (widest_bounds col padding_table) as [Hle Hex].
  split; [|split; [exact Hle | split; [exact (Hex Hm)|]]].
  - rewrite padding_steps_chain. apply (chain_ok _ _ _ xs); auto.
    apply chain_series_pads; [now apply no_tract_pads_only | exact Hm].
  - intros v w. split; [reflexivity | split].
    + apply zfill_length.
    + apply zfill_wide.
Qed.



(** * Failure and re-runs *)

Section Runs.

Variable parse_datetime : value -> option string.
Variable cast_value : string -> value -> option value.

Abbreviation cast_column := (cast_column parse_datetime cast_value).
Abbreviation for_columns := (for_columns parse_datetime cast_value).
Abbreviation cast_dataframe := (cast_dataframe parse_datetime cast_value).
Abbreviation temporal_step := (temporal_step parse_datetime).
Abbreviation cast_step := (cast_step cast_value).
Abbreviation to_datetime := (to_datetime parse_datetime).
Abbreviation cast_series_type := (cast_series_type cast_value).
Abbreviation renormalizable := (renormalizable parse_datetime cast_value).
Abbreviation settled := (settled cast_value).

Lemma for_columns_app (done rest : list Column) (frame : Frame) :
  for_columns (done ++ rest)%list frame
  = match for_columns done frame with
    | (mid, Ok _) => for_columns rest mid
    | (mid, Raise e) => (mid, Raise e)
    end.
Proof.
  revert frame. induction done as [|c done IH]; intros f; simpl.
  - reflexivity.
  - unfold bind. destruct (cast_column c f) as [f1 [[]|e]]; auto.
Qed.

(** A raising loop stopped in one entry, after all the entries ahead of it
    had run through. *)
Lemma for_columns_raise (cols : list Column) :
  forall frame frame' e,
    for_columns cols frame = (frame', Raise e) ->
    exists done column rest mid,
      cols = (done ++ column :: rest)%list
      /\ for_columns done frame = (mid, Ok tt)
      /\ cast_column column mid = (frame', Raise e).
Proof.
  induction cols as [|c cols IH]; simpl; intros f f' e H.
  - discriminate.
  - unfold bind in H. destruct (cast_column c f) as [f1 [[]|e1]] eqn:E.
    + apply IH in H as [done [column [rest [mid [-> [Hd Hc]]]]]].
      exists (c :: done), column, rest, mid. repeat split; auto.
      simpl. unfold bind. now rewrite E.
    + inversion H; subst. exists [], c, cols, f. repeat split; auto.
Qed.

(** C1, amended.  When a value raises during cast_dataframe, the exception
    reaches the caller and no frame is returned, but the caller's frame
    keeps what the loop had done by then: the schema entries ahead of the
    failing one have been applied in full, only the column of the failing
    entry can differ from that state, and the columns named by neither are
    as they were before the call.  The frame keeps its column names and
    row counts. *)
Theorem C1_failure_leaves_earlier_columns_normalized
        (cols : list Column) (frame frame' : Frame) (e : exn) :
  cast_dataframe cols frame = (frame', Raise e) ->
  exists done column rest mid,
    cols = (done ++ column :: rest)%list
    /\ cast_dataframe done frame = (mid, Ok mid)
    /\ cast_column column mid = (frame', Raise e)
    /\ (forall c, c <> Name column -> getitem frame' c = getitem mid c)
    /\ (forall c, ~ In c (map Name done) -> c <> Name column ->
                  getitem frame' c = getitem frame c)
    /\ shape frame' = shape frame.
Proof.
  rewrite cast_dataframe_for_columns.
  destruct (for_columns cols frame) as [f' [[]|e']] eqn:E; [discriminate|].
  intros H. inversion H; subst.
  pose proof (for_columns_frame _ _ _ _ _ _ E) as [S _].
  apply for_columns_raise in E as [done [column [rest [mid [-> [Hd Hc]]]]]].
  exists done, column, rest, mid.
  pose proof (for_columns_frame _ _ _ _ _ _ Hd) as [_ Gd].
  pose proof (confined_cast_column _ _ _ _ _ _ Hc) as [_ Gc].
  repeat split; auto.
  - rewrite cast_dataframe_for_columns. now rewrite Hd.
  - intros c H1 H2. rewrite Gc, Gd; auto.
Qed.

End Runs.

(** C1, as stated, fails: the frame is changed in place column by column,
    and nothing undoes the columns already stored when a later one raises.
    Here zip_cd is padded and cast before event_date fails to parse; the
    caller is left with a frame that is neither the one passed in nor a
    fully normalized one. *)
Lemma C1_counterexample_half_normalized_frame :
  sample_cast_dataframe
    [mkColumn "zip_cd" "string"; mkColumn "event_date" "timestamp"]
    [("zip_cd", [VInt 123]); ("event_date", [VStr "not-a-date"])]
  = ([("zip_cd", [VStr "00123"]); ("event_date", [VStr "not-a-date"])],
     Raise (ParseError 0 (VStr "not-a-date")))
  /\ [("zip_cd", [VStr "00123"]); ("event_date", [VStr "not-a-date"])]
     <> [("zip_cd", [VInt 123]); ("event_date", [VStr "not-a-date"])].
Proof. split; [vm_compute; reflexivity | discriminate]. Qed.

(** ** Running the method on its own output *)

Lemma chain_none (col : string) (rules : list rule) (frame : Frame) :
  existsb (matches col) rules = false ->
  chain col rules frame = (frame, Ok tt).
Proof.
  induction rules as [|r rest IH]; simpl; [reflexivity|].
  intros H. apply orb_false_iff in H as [-> H]. unfold bind. simpl.
  now apply IH.
Qed.

Lemma padding_steps_none (col : string) (frame : Frame) :
  matches_padding col = false -> padding_steps col frame = (frame, Ok tt).
Proof. intros H. rewrite padding_steps_chain. now apply chain_none. Qed.

Lemma padding_steps_pads (col : string) (frame : Frame) (xs : Series) :
  getitem frame col = Some xs ->
  matches_padding col = true ->
  contains col "prim_census_tract_cd" = false ->
  padding_steps col frame
  = (setitem frame col (map (fun v => zfill v (width_of col)) xs), Ok tt).
Proof.
  intros Hget Hm Ht. rewrite padding_steps_chain.
  apply (chain_ok _ _ _ xs); auto.
  apply chain_series_pads; [now apply no_tract_pads_only | exact Hm].
Qed.

Lemma chain_series_fixed (col : string) (rules : list rule) (xs : Series) :
  (forall r, In r rules -> matches col r = true ->
             apply (rule_transform r) xs = Ok xs) ->
  chain_series (filter (matches col) rules) xs = Ok xs.
Proof.
  induction rules as [|r rest IH]; intros H; simpl; [reflexivity|].
  destruct (matches col r) eqn:E; simpl.
  - rewrite H by (simpl; auto). apply IH. intros; apply H; simpl; auto.
  - apply IH. intros; apply H; simpl; auto.
Qed.

Lemma map_fixed (h : value -> value) (xs : Series) :
  Forall (fun v => h v = v) xs -> map h xs = xs.
Proof. induction 1; simpl; congruence. Qed.

Section Idempotence.

Variable parse_datetime : value -> option string.
Variable cast_value : string -> value -> option value.

Abbreviation cast_column := (cast_column parse_datetime cast_value).
Abbreviation for_columns := (for_columns parse_datetime cast_value).
Abbreviation cast_dataframe := (cast_dataframe parse_datetime cast_value).
Abbreviation temporal_step := (temporal_step parse_datetime).
Abbreviation cast_step := (cast_step cast_value).
Abbreviation to_datetime := (to_datetime parse_datetime).
Abbreviation cast_series_type := (cast_series_type cast_value).
Abbreviation renormalizable := (renormalizable parse_datetime cast_value).
Abbreviation settled := (settled cast_value).

Lemma cast_series_type_fixed (xs : Series) (ty : string) :
  Forall (fun u => cast_value ty u = Some u) xs ->
  cast_series_type xs ty = Ok xs.
Proof.
  intros H. apply apply_from_fixed.
  eapply Forall_impl; [|exact H]. intros u Hu row. simpl. now rewrite Hu.
Qed.

Lemma to_datetime_fixed (xs : Series) :
  Forall (fun u => exists iso, u = VTime iso
                               /\ parse_datetime u = Some iso) xs ->
  to_datetime xs = Ok xs.
Proof.
  intros H. apply apply_from_fixed.
  eapply Forall_impl; [|exact H]. intros u [iso [-> Hu]] row. simpl.
  now rewrite Hu.
Qed.

Lemma to_datetime_times (xs ys : Series) :
  to_datetime xs = Ok ys -> Forall (fun y => exists iso, y = VTime iso) ys.
Proof.
  intros H. apply apply_from_Forall2 in H.
  induction H as [|x y xs ys [r Hr] _ IH]; constructor; auto.
  simpl in Hr. destruct (parse_datetime x); inversion Hr. eauto.
Qed.

Lemma cast_series_type_outputs (xs ys : Series) (ty : string) :
  cast_series_type xs ty = Ok ys ->
  Forall (fun y => exists x, cast_value ty x = Some y) ys.
Proof.
  intros H. apply apply_from_Forall2 in H.
  induction H as [|x y xs ys [r Hr] _ IH]; constructor; auto.
  simpl in Hr. destruct (cast_value ty x) eqn:E; inversion Hr; subst. eauto.
Qed.

(** What an iteration that returns leaves in its column is settled. *)
Lemma cast_column_settles (column : Column) (frame frame' : Frame) :
  renormalizable column ->
  cast_column column frame = (frame', Ok tt) ->
  forall xs,
    getitem frame' (Name column) = Some xs -> Forall (settled column) xs.
Proof.
  intros [Ht [Hpad [Htime Hplain]]] Hrun xs Hx.
  unfold cast_column in Hrun.
  destruct (in_columns (Name column) frame) eqn:Ein.
  2:{ inversion Hrun; subst. apply in_columns_false in Ein. congruence. }
  apply in_columns_getitem in Ein as [xs0 Hget].
  unfold bind in Hrun.
  destruct (matches_padding (Name column)) eqn:Ep.
  - destruct (Hpad eq_refl) as [Hnt Hstr].
    unfold temporal_step in Hrun. rewrite Hnt in Hrun.
    simpl when in Hrun. unfold ret in Hrun.
    rewrite (padding_steps_pads _ _ xs0) in Hrun by assumption.
    unfold cast_step, update in Hrun.
    rewrite getitem_setitem_same in Hrun.
    rewrite cast_series_type_fixed in Hrun
      by (apply Forall_map, Forall_forall; intros v _; apply Hstr).
    inversion Hrun; subst. rewrite getitem_setitem_same in Hx.
    inversion Hx; subst. apply Forall_map, Forall_forall. intros v _.
    repeat split.
    + intros Habs. congruence.
    + intros _. eexists. split; [reflexivity|].
      change (width_of (Name column)
              <= String.length (str (zfill v (width_of (Name column))))).
      rewrite zfill_length. lia.
    + apply Hstr.
  - destruct (has_temporal_suffix (Name column)) eqn:Et.
    + destruct (Htime eq_refl) as [Hp Hc].
      unfold temporal_step in Hrun. rewrite Et in Hrun.
      simpl when in Hrun. unfold update at 1 in Hrun. rewrite Hget in Hrun.
      destruct (to_datetime xs0) as [ys|e] eqn:Ed; [|discriminate].
      pose proof (to_datetime_times _ _ Ed) as Hys.
      rewrite padding_steps_none in Hrun by assumption.
      unfold cast_step, update in Hrun.
      rewrite getitem_setitem_same in Hrun.
      rewrite cast_series_type_fixed in Hrun
        by (eapply Forall_impl; [|exact Hys]; intros u [iso ->]; apply Hc).
      inversion Hrun; subst. rewrite getitem_setitem_same in Hx.
      inversion Hx; subst. eapply Forall_impl; [|exact Hys].
      intros u [iso ->]. repeat split; eauto. intros Habs. congruence.
    + unfold temporal_step in Hrun. rewrite Et in Hrun.
      simpl when in Hrun. unfold ret in Hrun.
      rewrite padding_steps_none in Hrun by assumption.
      unfold cast_step, update in Hrun. rewrite Hget in Hrun.
      destruct (cast_series_type xs0 (Type_ column)) as [ys|e] eqn:Ec;
        [|discriminate].
      inversion Hrun; subst. rewrite getitem_setitem_same in Hx.
      inversion Hx; subst.
      eapply Forall_impl; [|exact (cast_series_type_outputs _ _ _ Ec)].
      intros u [x Hxu]. repeat split; try congruence. eauto.
Qed.

(** An iteration that finds its column settled leaves the frame alone. *)
Lemma settled_fixed (column : Column) (frame : Frame) (xs : Series) :
  renormalizable column ->
  getitem frame (Name column) = Some xs ->
  Forall (settled column) xs ->
  cast_column column frame = (frame, Ok tt).
Proof.
  intros [Ht [Hpad [Htime Hplain]]] Hget Hs.
  unfold cast_column.
  assert (in_columns (Name column) frame = true) as ->
      by (apply in_columns_getitem; eauto).
  unfold bind.
  assert (temporal_step (Name column) frame = (frame, Ok tt)) as ->.
  { unfold temporal_step.
    destruct (has_temporal_suffix (Name column)) eqn:Et; [|reflexivity].
    destruct (Htime eq_refl) as [Hp _]. simpl when.
    apply (update_fixed _ _ _ xs); auto. apply to_datetime_fixed.
    eapply Forall_impl; [|exact Hs]. intros u [Hu _].
    destruct (Hu Et) as [iso ->]. eauto. }
  assert (padding_steps (Name column) frame = (frame, Ok tt)) as ->.
  { destruct (matches_padding (Name column)) eqn:Ep;
      [|now apply padding_steps_none].
    rewrite padding_steps_chain.
    rewrite (chain_ok _ _ _ xs xs); auto.
    - now rewrite setitem_same_value.
    - apply chain_series_fixed. intros r Hin Hm.
      rewrite apply_rule_pads by (now apply (no_tract_pads_only (Name column))).
      apply (f_equal Ok). apply map_fixed.
      eapply Forall_impl; [|exact Hs]. intros u [_ [Hu _]].
      destruct (Hu Ep) as [s [-> Hw]].
      apply zfill_wide. simpl.
      pose proof (widest_bounds (Name column) padding_table) as [Hle _].
      specialize (Hle r Hin Hm). unfold width_of in Hw. lia. }
  unfold cast_step. apply (update_fixed _ _ _ xs); auto.
  apply cast_series_type_fixed.
  eapply Forall_impl; [|exact Hs]. now intros u [_ [_ Hu]].
Qed.

Lemma for_columns_settles (cols : list Column) :
  forall frame frame',
    NoDup (map Name cols) ->
    (forall column, In column cols -> renormalizable column) ->
    for_columns cols frame = (frame', Ok tt) ->
    forall column xs,
      In column cols ->
      getitem frame' (Name column) = Some xs -> Forall (settled column) xs.
Proof.
  induction cols as [|c cols IH]; simpl; intros f f' Hnd Hr Hrun column xs Hin Hx.
  - contradiction.
  - inversion Hnd as [|? ? Hnotin Hnd']; subst.
    unfold bind in Hrun.
    destruct (cast_column c f) as [f1 [[]|e]] eqn:Ec; [|discriminate].
    destruct Hin as [<-|Hin].
    + pose proof (for_columns_frame _ _ _ _ _ _ Hrun) as [_ G].
      rewrite G in Hx by assumption.
      eapply cast_column_settles; eauto.
    + eapply IH; eauto.
Qed.

Lemma for_columns_fixed (cols : list Column) (frame : Frame) :
  (forall column, In column cols -> renormalizable column) ->
  (forall column xs,
      In column cols ->
      getitem frame (Name column) = Some xs -> Forall (settled column) xs) ->
  for_columns cols frame = (frame, Ok tt).
Proof.
  induction cols as [|c cols IH]; simpl; intros Hr Hs; [reflexivity|].
  unfold bind.
  assert (cast_column c frame = (frame, Ok tt)) as ->.
  { destruct (getitem frame (Name c)) as [xs|] eqn:Eg.
    - apply (settled_fixed _ _ xs); auto.
    - apply cast_column_absent. now apply in_columns_false. }
  apply IH; auto.
Qed.

(** C2, amended.  For every schema with distinct column names in which no
    name contains prim_census_tract_cd, normalization is idempotent once
    the two external steps are neutral on their own output: padded columns
    are declared with a type whose cast keeps strings (and are not temporal
    as well), temporal columns with a type whose cast keeps the timestamps
    that to_datetime keeps too, and the other casts give back what they
    have produced.  If a first run returns a frame, a second run on that
    frame returns it unchanged. *)
Theorem C2_idempotent_without_census_tract
        (cols : list Column) (frame frame1 out : Frame) :
  NoDup (map Name cols) ->
  (forall column, In column cols -> renormalizable column) ->
  cast_dataframe cols frame = (frame1, Ok out) ->
  cast_dataframe cols frame1 = (frame1, Ok frame1).
Proof.
  intros Hnd Hr. rewrite !cast_dataframe_for_columns.
  destruct (for_columns cols frame) as [f1 [[]|e]] eqn:E; [|discriminate].
  intros H. inversion H; subst.
  rewrite for_columns_fixed; auto.
  intros column xs Hin Hx. eapply for_columns_settles; eauto.
Qed.

End Idempotence.

(** C2, as stated, fails on the census-tract rule: its values are
    multiplied by 100 on every run.  The value 100000 is already at the
    target width 6; a first run stores "10000000", and a second run on
    that frame multiplies again (on a string, by repetition) and stores
    something else.  Declared as bigint the column goes from 10000000 to
    1000000000 on the second run. *)
Lemma C2_counterexample_census_tract_not_idempotent :
  6 <= String.length (str (VInt 100000))
  /\ sample_cast_dataframe [mkColumn "prim_census_tract_cd" "string"]
       [("prim_census_tract_cd", [VInt 100000])]
     = ([("prim_census_tract_cd", [VStr "10000000"])],
        Ok [("prim_census_tract_cd", [VStr "10000000"])])
  /\ sample_cast_dataframe [mkColumn "prim_census_tract_cd" "string"]
       [("prim_census_tract_cd", [VStr "10000000"])]
     <> ([("prim_census_tract_cd", [VStr "10000000"])],
         Ok [("prim_census_tract_cd", [VStr "10000000"])])
  /\ sample_cast_dataframe [mkColumn "prim_census_tract_cd" "bigint"]
       [("prim_census_tract_cd", [VInt 100000])]
     = ([("prim_census_tract_cd", [VInt 10000000])],
        Ok [("prim_census_tract_cd", [VInt 10000000])])
  /\ sample_cast_dataframe [mkColumn "prim_census_tract_cd" "bigint"]
       [("prim_census_tract_cd", [VInt 10000000])]
     = ([("prim_census_tract_cd", [VInt 1000000000])],
        Ok [("prim_census_tract_cd", [VInt 1000000000])]).
Proof.
  split; [vm_compute; lia|].
  split; [vm_compute; reflexivity|].
  split; [vm_compute; discriminate|].
  split; vm_compute; reflexivity.
Qed.

(** * The theorems at concrete frames *)

Lemma C1_witness :
  sample_cast_dataframe bad_date_schema bad_date_frame
  = ([("zip_cd", [VStr "00123"]); ("event_date", [VStr "not-a-date"])],
     Raise (ParseError 0 (VStr "not-a-date")))
  /\ exists done column rest mid,
      bad_date_schema = (done ++ column :: rest)%list
      /\ sample_cast_dataframe done bad_date_frame = (mid, Ok mid)
      /\ cast_column sample_parse_datetime sample_cast_value column mid
         = ([("zip_cd", [VStr "00123"]); ("event_date", [VStr "not-a-date"])],
            Raise (ParseError 0 (VStr "not-a-date")))
      /\ (forall c, c <> Name column ->
                    getitem [("zip_cd", [VStr "00123"]);
                             ("event_date", [VStr "not-a-date"])] c
                    = getitem mid c)
      /\ (forall c, ~ In c (map Name done) -> c <> Name column ->
                    getitem [("zip_cd", [VStr "00123"]);
                             ("event_date", [VStr "not-a-date"])] c
                    = getitem bad_date_frame c)
      /\ shape [("zip_cd", [VStr "00123"]);
                ("event_date", [VStr "not-a-date"])]
         = shape bad_date_frame.
Proof.
  split; [vm_compute; reflexivity|].
  apply (C1_failure_leaves_earlier_columns_normalized
           sample_parse_datetime sample_cast_value).
  vm_compute; reflexivity.
Defined.

Lemma demo_schema_renormalizable :
  forall column,
    In column demo_schema ->
    renormalizable sample_parse_datetime sample_cast_value column.
Proof.
  intros column Hin. simpl in Hin.
  destruct Hin as [<-|[<-|[<-|[<-|[]]]]]; unfold renormalizable; simpl;
    (split; [reflexivity|]);
    (split; [intros H; vm_compute in H; try discriminate;
             split; reflexivity|]);
    (split; [intros H; vm_compute in H; try discriminate;
             split; reflexivity|]);
    intros H; vm_compute in H; try discriminate.
  - intros _ v u Hv. unfold sample_cast_value in Hv |- *.
    simpl in Hv |- *. destruct v as [n|s|iso].
    + now inversion Hv.
    + destruct (NilZero.int_of_string s); inversion Hv. reflexivity.
    + discriminate.
  - intros _ v u Hv. unfold sample_cast_value in Hv |- *.
    simpl in Hv |- *. inversion Hv. reflexivity.
Defined.

Lemma C2_witness :
  NoDup (map Name demo_schema)
  /\ (forall column,
         In column demo_schema ->
         renormalizable sample_parse_datetime sample_cast_value column)
  /\ sample_cast_dataframe demo_schema demo_frame
     = (demo_normalized, Ok demo_normalized)
  /\ sample_cast_dataframe demo_schema demo_normalized
     = (demo_normalized, Ok demo_normalized).
Proof.
  assert (NoDup (map Name demo_schema)) as Hnd.
  { simpl. repeat constructor; simpl; intuition discriminate. }
  split; [exact Hnd|].
  split; [exact demo_schema_renormalizable|].
  split; [vm_compute; reflexivity|].
  apply (C2_idempotent_without_census_tract
           sample_parse_datetime sample_cast_value
           demo_schema demo_frame demo_normalized demo_normalized Hnd
           demo_schema_renormalizable).
  vm_compute; reflexivity.
Defined.

Lemma C3_witness :
  getitem demo_frame "zip_cd" = Some [VInt 123; VInt 123456]
  /\ matches_padding "zip_cd" = true
  /\ contains "zip_cd" "prim_census_tract_cd" = false
  /\ width_of "zip_cd" = 5
  /\ padding_steps "zip_cd" demo_frame
     = (setitem demo_frame "zip_cd" [VStr "00123"; VStr "123456"], Ok tt).
Proof.
  repeat (split; [reflexivity|]).
  destruct (C3_padding_to_rule_width
              "zip_cd" demo_frame [VInt 123; VInt 123456]
              eq_refl eq_refl eq_refl) as [H _].
  exact H.
Defined.




Lemma C7_witness :
  filter (fun column => in_columns (Name column) demo_frame) demo_schema
  = [ mkColumn "zip_cd" "string"; mkColumn "event_date" "timestamp";
      mkColumn "loan_cnt" "bigint" ]
  /\ cast_column sample_parse_datetime sample_cast_value
       (mkColumn "not_in_frame" "string") demo_frame
     = (demo_frame, Ok tt)
  /\ sample_cast_dataframe
       (filter (fun column => in_columns (Name column) demo_frame)
               demo_schema) demo_frame
     = sample_cast_dataframe demo_schema demo_frame
  /\ getitem (fst (sample_cast_dataframe demo_schema demo_frame)) "note"
     = getitem demo_frame "note".
Proof.
  split; [reflexivity|].
  destruct (C7_absent_entries_skipped_other_columns_untouched
              sample_parse_datetime sample_cast_value demo_schema demo_frame)
    as [H1 [H2 H3]].
  split; [apply H1; reflexivity|].
  split; [exact H2|].
  apply H3. simpl. intuition discriminate.
Defined.

Lemma C8_witness :
  getitem [("cnty_cd_prim_census_tract_cd", [VInt 5])]
          "cnty_cd_prim_census_tract_cd"
  = Some [VInt 5]
  /\ filter (matches "cnty_cd_prim_census_tract_cd") padding_table
     = [ mkRule ["cnty_cd"] 3 Plain;
         mkRule ["prim_census_tract_cd"] 6 Times100 ]
  /\ padding_steps "cnty_cd_prim_census_tract_cd"
       [("cnty_cd_prim_census_tract_cd", [VInt 5])]
     = ([("cnty_cd_prim_census_tract_cd", [VStr (repeat_str 100 "005")])],
        Ok tt).
Proof.
  repeat (split; [reflexivity|]).
  destruct (C8_matching_rules_chain_in_table_order
              "cnty_cd_prim_census_tract_cd"
              [("cnty_cd_prim_census_tract_cd", [VInt 5])] [VInt 5] eq_refl)
    as [_ [H _]].
  apply (H [VStr (repeat_str 100 "005")]). vm_compute. reflexivity.
Defined.


Lemma C10_witness :
  sample_cast_dataframe demo_schema demo_frame
  = (demo_normalized, Ok demo_normalized)
  /\ columns demo_normalized = columns demo_frame
  /\ map (fun c => List.length (snd c)) demo_normalized
     = map (fun c => List.length (snd c)) demo_frame
  /\ shape demo_normalized = shape demo_frame.
Proof.
  split; [vm_compute; reflexivity|].
  apply (C10_shape_preserved
           sample_parse_datetime sample_cast_value
           demo_schema demo_frame demo_normalized demo_normalized).
  vm_compute. reflexivity.
Defined.

(** * The method against its pure reading *)

Section Pure.

Variable parse_datetime : value -> option string.
Variable cast_value : string -> value -> option value.

Abbreviation cast_column := (cast_column parse_datetime cast_value).
Abbreviation for_columns := (for_columns parse_datetime cast_value).
Abbreviation cast_dataframe := (cast_dataframe parse_datetime cast_value).
Abbreviation temporal_step := (temporal_step parse_datetime).
Abbreviation cast_step := (cast_step cast_value).
Abbreviation to_datetime := (to_datetime parse_datetime).
Abbreviation cast_series_type := (cast_series_type cast_value).
Abbreviation temporal_series := (temporal_series parse_datetime).
Abbreviation normalize_series := (normalize_series parse_datetime cast_value).
Abbreviation normalize_column := (normalize_column parse_datetime cast_value).
Abbreviation normalize_frame := (normalize_frame parse_datetime cast_value).

Lemma temporal_step_run (col : string) (frame : Frame) (xs : Series) :
  getitem frame col = Some xs ->
  match temporal_series col xs with
  | Ok ys => temporal_step col frame = (setitem frame col ys, Ok tt)
  | Raise e => temporal_step col frame = (frame, Raise e)
  end.
Proof.
  intros Hget. unfold temporal_series, temporal_step.
  destruct (has_temporal_suffix col); simpl when.
  - destruct (to_datetime xs) as [ys|e] eqn:E.
    + now apply (update_ok _ _ _ xs).
    + now apply (update_raise _ _ _ xs).
  - unfold ret. now rewrite setitem_same_value.
Qed.

Lemma padding_steps_run (col : string) (frame : Frame) (xs : Series) :
  getitem frame col = Some xs ->
  match chain_series (filter (matches col) padding_table) xs with
  | Ok ys => padding_steps col frame = (setitem frame col ys, Ok tt)
  | Raise e => exists frame', padding_steps col frame = (frame', Raise e)
  end.
Proof.
  intros Hget. rewrite padding_steps_chain.
  destruct (chain_series (filter (matches col) padding_table) xs) eqn:E.
  - now apply (chain_ok _ _ _ xs).
  - now apply (chain_raise _ _ _ xs).
Qed.

Lemma cast_column_run (column : Column) (frame : Frame) :
  match normalize_column column frame with
  | Ok frame1 => cast_column column frame = (frame1, Ok tt)
  | Raise e => exists frame1, cast_column column frame = (frame1, Raise e)
  end.
Proof.
  unfold normalize_column.
  destruct (getitem frame (Name column)) as [xs|] eqn:Hget.
  2:{ apply cast_column_absent. now apply in_columns_false. }
  assert (in_columns (Name column) frame = true) as Hin
      by (apply in_columns_getitem; eauto).
  unfold cast_column. rewrite Hin. unfold bind, normalize_series.
  pose proof (temporal_step_run _ _ _ Hget) as Ht.
  destruct (temporal_series (Name column) xs) as [ys|e]; rewrite Ht; eauto.
  pose proof (padding_steps_run (Name column) _ ys
                (getitem_setitem_same frame (Name column) ys)) as Hp.
  destruct (chain_series (filter (matches (Name column)) padding_table) ys)
    as [zs|e].
  2:{ destruct Hp as [f' Hp]. rewrite Hp. eauto. }
  rewrite Hp, setitem_setitem by assumption.
  unfold cast_step, update. rewrite getitem_setitem_same.
  destruct (cast_series_type zs (Type_ column)) as [us|e]; eauto.
  now rewrite setitem_setitem.
Qed.

Lemma for_columns_run (cols : list Column) :
  forall frame,
    match normalize_frame cols frame with
    | Ok frame' => for_columns cols frame = (frame', Ok tt)
    | Raise e => exists frame', for_columns cols frame = (frame', Raise e)
    end.
Proof.
  induction cols as [|c cols IH]; intros f; simpl; [reflexivity|].
  unfold bind. pose proof (cast_column_run c f) as Hc.
  destruct (normalize_column c f) as [f1|e].
  - rewrite Hc. apply IH.
  - destruct Hc as [f1 Hc]. rewrite Hc. eauto.
Qed.

Lemma cast_dataframe_normalize
        (cols : list Column) (frame : Frame) :
  (forall frame',
      normalize_frame cols frame = Ok frame' <->
      cast_dataframe cols frame = (frame', Ok frame'))
  /\ (forall e,
         normalize_frame cols frame = Raise e <->
         exists frame', cast_dataframe cols frame = (frame', Raise e)).
Proof.
  pose proof (for_columns_run cols frame) as H.
  rewrite cast_dataframe_for_columns.
  destruct (normalize_frame cols frame) as [f1|e1].
  - rewrite H. split.
    + intros f'. split; intros E; inversion E; subst; reflexivity.
    + intros e. split; [discriminate | intros [f' E]; discriminate].
  - destruct H as [f1 H]. rewrite H. split.
    + intros f'. split; discriminate.
    + intros e. split.
      * intros E. inversion E; subst. eauto.
      * intros [f' E]. inversion E; subst. reflexivity.
Qed.

(** X1.  The call returns exactly when the pure reading succeeds, with the same
    frame; it raises exactly when the pure reading fails, with the same
    exception. *)
Theorem cast_dataframe_is_normalize_frame
        (cols : list Column) (frame : Frame) :
  (forall frame',
      normalize_frame cols frame = Ok frame' <->
      cast_dataframe cols frame = (frame', Ok frame'))
  /\ (forall e,
         normalize_frame cols frame = Raise e <->
         exists frame', cast_dataframe cols frame = (frame', Raise e)).
Proof. apply cast_dataframe_normalize. Qed.

End Pure.

(** ** Which exceptions a run can raise *)

Lemma chain_series_raise (col : string) (rules : list rule) :
  forall xs e,
    chain_series (filter (matches col) rules) xs = Raise e ->
    exists r row iso,
      In r rules /\ matches col r = true /\ special_case r = Times100
      /\ e = TypeError row (VTime iso).
Proof.
  induction rules as [|r rest IH]; intros xs e H; simpl in H.
  - discriminate.
  - destruct (matches col r) eqn:Em; simpl in H.
    + destruct (apply (rule_transform r) xs) as [ys|e'] eqn:Ea.
      * destruct (IH _ _ H) as [r' [row [iso [Hin Hr]]]].
        exists r', row, iso. simpl. tauto.
      * inversion H; subst. unfold apply in Ea.
        apply apply_from_raise in Ea as [i [x [_ [Hr _]]]].
        unfold rule_transform in Hr.
        destruct (special_case r) eqn:Es; try discriminate.
        destruct x as [n|s|iso]; simpl in Hr; try discriminate.
        inversion Hr; subst. exists r, (0 + i), iso. simpl. tauto.
    + destruct (IH _ _ H) as [r' [row [iso [Hin Hr]]]].
      exists r', row, iso. simpl. tauto.
Qed.

Lemma chain_series_nil (rules : list rule) : chain_series rules [] = Ok [].
Proof. induction rules as [|r rest IH]; simpl; auto. Qed.

Lemma setitem_comm (frame : Frame) (a b : string) (u v : Series) :
  a <> b ->
  in_columns a frame = true -> in_columns b frame = true ->
  setitem (setitem frame a u) b v = setitem (setitem frame b v) a u.
Proof.
  unfold in_columns, columns. intros Hab.
  induction frame as [|[name xs] rest IH]; simpl; [discriminate|].
  destruct (String.eqb a name) eqn:Ea, (String.eqb b name) eqn:Eb;
    simpl; rewrite ?Ea, ?Eb; intros Ha Hb.
  - apply String.eqb_eq in Ea, Eb. congruence.
  - reflexivity.
  - reflexivity.
  - now rewrite IH.
Qed.

Section PureFacts.

Variable parse_datetime : value -> option string.
Variable cast_value : string -> value -> option value.

Abbreviation cast_column := (cast_column parse_datetime cast_value).
Abbreviation cast_dataframe := (cast_dataframe parse_datetime cast_value).
Abbreviation to_datetime := (to_datetime parse_datetime).
Abbreviation cast_series_type := (cast_series_type cast_value).
Abbreviation temporal_series := (temporal_series parse_datetime).
Abbreviation normalize_series := (normalize_series parse_datetime cast_value).
Abbreviation normalize_column := (normalize_column parse_datetime cast_value).
Abbreviation normalize_frame := (normalize_frame parse_datetime cast_value).
Abbreviation failure := (failure parse_datetime cast_value).

Lemma normalize_frame_cons (c : Column) (cols : list Column) (f : Frame) :
  normalize_frame (c :: cols) f
  = match normalize_column c f with
    | Ok f1 => normalize_frame cols f1
    | Raise e => Raise e
    end.
Proof. reflexivity. Qed.

Lemma normalize_series_raise (column : Column) (xs : Series) (e : exn) :
  normalize_series column xs = Raise e -> failure column e.
Proof.
  unfold normalize_series, temporal_series. intros H.
  destruct (has_temporal_suffix (Name column)) eqn:Et.
  - destruct (to_datetime xs) as [ys|e1] eqn:Ed.
    + destruct (chain_series _ ys) as [zs|e2] eqn:Ec.
      * unfold cast_series_type, apply in H.
        apply apply_from_raise in H as [i [x [_ [Hr _]]]]. simpl in Hr.
        destruct (cast_value (Type_ column) x) eqn:Ev; inversion Hr.
        now constructor.
      * inversion H; subst.
        apply chain_series_raise in Ec
          as [r [row [iso [Hin [Hm [Hs ->]]]]]].
        constructor. simpl in Hin.
        destruct Hin as [<-|[<-|[<-|[<-|[<-|[<-|[<-|[]]]]]]]];
          try discriminate.
        unfold matches in Hm. simpl in Hm. now rewrite orb_false_r in Hm.
    + inversion H; subst. unfold to_datetime, apply in Ed.
      apply apply_from_raise in Ed as [i [x [_ [Hr _]]]]. simpl in Hr.
      destruct (parse_datetime x) eqn:Ex; inversion Hr. now constructor.
  - destruct (chain_series _ xs) as [zs|e2] eqn:Ec.
    + unfold cast_series_type, apply in H.
      apply apply_from_raise in H as [i [x [_ [Hr _]]]]. simpl in Hr.
      destruct (cast_value (Type_ column) x) eqn:Ev; inversion Hr.
      now constructor.
    + inversion H; subst.
      apply chain_series_raise in Ec as [r [row [iso [Hin [Hm [Hs ->]]]]]].
      constructor. simpl in Hin.
      destruct Hin as [<-|[<-|[<-|[<-|[<-|[<-|[<-|[]]]]]]]];
        try discriminate.
      unfold matches in Hm. simpl in Hm. now rewrite orb_false_r in Hm.
Qed.

Lemma normalize_frame_raise (cols : list Column) :
  forall frame e,
    normalize_frame cols frame = Raise e ->
    exists column, In column cols /\ failure column e.
Proof.
  induction cols as [|c cols IH]; intros f e H.
  - discriminate.
  - rewrite normalize_frame_cons in H.
    destruct (normalize_column c f) as [f1|e1] eqn:Ec.
    + destruct (IH _ _ H) as [column [Hin Hf]]. exists column. simpl. tauto.
    + inversion H; subst. exists c. split; [simpl; auto|].
      unfold normalize_column in Ec.
      destruct (getitem f (Name c)) as [xs|]; [|discriminate].
      destruct (normalize_series c xs) as [ys|e2] eqn:Es; inversion Ec; subst.
      eapply normalize_series_raise; eauto.
Qed.


End PureFacts.

(** ** Empty columns, schema order, and a column no run gets through *)

Section Order.

Variable parse_datetime : value -> option string.
Variable cast_value : string -> value -> option value.

Abbreviation cast_dataframe := (cast_dataframe parse_datetime cast_value).
Abbreviation to_datetime := (to_datetime parse_datetime).
Abbreviation normalize_series := (normalize_series parse_datetime cast_value).
Abbreviation normalize_column := (normalize_column parse_datetime cast_value).
Abbreviation normalize_frame := (normalize_frame parse_datetime cast_value).

Lemma normalize_series_nil (column : Column) :
  normalize_series column [] = Ok [].
Proof.
  unfold normalize_series, temporal_series.
  destruct (has_temporal_suffix (Name column)); simpl;
    now rewrite chain_series_nil.
Qed.


Lemma normalize_column_shape (c : Column) (f f1 : Frame) :
  normalize_column c f = Ok f1 ->
  forall name, in_columns name f1 = in_columns name f.
Proof.
  intros H name.
  pose proof (cast_column_run parse_datetime cast_value c f) as Hr.
  rewrite H in Hr.
  apply confined_cast_column in Hr as [S _]. now apply in_columns_shape.
Qed.

Lemma normalize_column_other (c : Column) (f f1 : Frame) (name : string) :
  normalize_column c f = Ok f1 ->
  name <> Name c -> getitem f1 name = getitem f name.
Proof.
  intros H Hne.
  pose proof (cast_column_run parse_datetime cast_value c f) as Hr.
  rewrite H in Hr.
  apply confined_cast_column in Hr as [_ G]. now apply G.
Qed.

(** Two entries with different names can be taken in either order. *)
Lemma normalize_column_swap (a b : Column) (f f1 f2 : Frame) :
  Name a <> Name b ->
  normalize_column a f = Ok f1 ->
  normalize_column b f1 = Ok f2 ->
  exists g, normalize_column b f = Ok g /\ normalize_column a g = Ok f2.
Proof.
  intros Hab Ha Hb.
  pose proof (normalize_column_other _ _ _ (Name b) Ha
                (fun E => Hab (eq_sym E))) as Gb.
  unfold normalize_column in *.
  rewrite Gb in Hb.
  destruct (getitem f (Name b)) as [ys|] eqn:Eb.
  - destruct (normalize_series b ys) as [ys'|e]; [|discriminate].
    inversion Hb; subst f2. eexists. split; [reflexivity|].
    rewrite getitem_setitem_other by assumption.
    destruct (getitem f (Name a)) as [xs|] eqn:Ea.
    + destruct (normalize_series a xs) as [xs'|e]; [|discriminate].
      inversion Ha; subst f1. f_equal.
      apply setitem_comm.
      * intros E. apply Hab. now symmetry.
      * apply in_columns_getitem; eauto.
      * apply in_columns_getitem; eauto.
    + inversion Ha; subst. reflexivity.
  - inversion Hb; subst f2. eexists. split; [reflexivity|]. exact Ha.
Qed.

Lemma normalize_frame_permutation (cols cols' : list Column) :
  Permutation cols cols' ->
  NoDup (map Name cols) ->
  forall frame frame',
    normalize_frame cols frame = Ok frame' ->
    normalize_frame cols' frame = Ok frame'.
Proof.
  induction 1 as [|x l l' Hp IH|x y l|l l' l'' Hp1 IH1 Hp2 IH2];
    intros Hnd f f' H.
  - exact H.
  - inversion Hnd; subst.
    change (match normalize_column x f with
            | Ok f1 => normalize_frame l f1
            | Raise e => Raise e
            end = Ok f') in H.
    change (match normalize_column x f with
            | Ok f1 => normalize_frame l' f1
            | Raise e => Raise e
            end = Ok f').
    destruct (normalize_column x f) as [f1|e]; [|discriminate]. now apply IH.
  - inversion Hnd as [|? ? Hnotin Hnd']; subst.
    assert (Name x <> Name y) as Hxy.
    { intros E. apply Hnotin. simpl. now left. }
    change (match normalize_column y f with
            | Ok f1 => match normalize_column x f1 with
                       | Ok f2 => normalize_frame l f2
                       | Raise e => Raise e
                       end
            | Raise e => Raise e
            end = Ok f') in H.
    change (match normalize_column x f with
            | Ok f1 => match normalize_column y f1 with
                       | Ok f2 => normalize_frame l f2
                       | Raise e => Raise e
                       end
            | Raise e => Raise e
            end = Ok f').
    destruct (normalize_column y f) as [f1|e] eqn:Ey; [|discriminate].
    destruct (normalize_column x f1) as [f2|e] eqn:Ex; [|discriminate].
    destruct (normalize_column_swap y x f f1 f2) as [g [Hg1 Hg2]]; auto.
    now rewrite Hg1, Hg2.
  - apply IH2.
    + eapply Permutation_NoDup; [|exact Hnd]. now apply Permutation_map.
    + now apply IH1.
Qed.

(** X4.  The order of the schema does not matter to a run that returns: with
    distinct column names, the same entries in any other order give the
    same frame. *)
Theorem cast_dataframe_schema_order
        (cols cols' : list Column) (frame frame' out : Frame) :
  Permutation cols cols' ->
  NoDup (map Name cols) ->
  cast_dataframe cols frame = (frame', Ok out) ->
  cast_dataframe cols' frame = (frame', Ok frame').
Proof.
  intros Hp Hnd H.
  assert (out = frame') as ->.
  { rewrite cast_dataframe_for_columns in H.
    destruct (for_columns parse_datetime cast_value cols frame)
      as [f [[]|e]]; inversion H; reflexivity. }
  apply (cast_dataframe_normalize parse_datetime cast_value).
  apply (normalize_frame_permutation cols cols' Hp Hnd).
  now apply (cast_dataframe_normalize parse_datetime cast_value).
Qed.


End Order.

(** * Splitting paths *)

Lemma append_nil_r (s : string) : s ++ EmptyString = s.
Proof. induction s; simpl; congruence. Qed.

Lemma split_from_exhausted (sep s : string) :
  split_from sep 0 (Some 0) s = [s].
Proof. induction s as [|c s IH]; simpl; [reflexivity | now rewrite IH]. Qed.

Lemma split_from_skip (sep a t : string) (m : option nat) :
  split_from sep (String.length a) m (a ++ t) = split_from sep 0 m t.
Proof.
  induction a as [|c a IH]; simpl; [|exact IH].
  destruct t; reflexivity.
Qed.

(** A separator right at the start is cut off. *)
Lemma split_from_here (sep t : string) (m : option nat) :
  sep <> EmptyString -> more_splits m = true ->
  split_from sep 0 m (sep ++ t)
  = EmptyString :: split_from sep 0 (one_less m) t.
Proof.
  intros Hsep Hm. destruct sep as [|c sep]; [contradiction|].
  change ((String c sep ++ t)) with (String c (sep ++ t)).
  cbn [split_from]. rewrite Hm.
  assert (prefix (String c sep) (String c (sep ++ t)) = true) as ->.
  { apply prefix_append. now exists t. }
  simpl andb. cbv iota. f_equal.
  replace (String.length (String c sep) - 1) with (String.length sep)
    by (simpl; lia).
  apply split_from_skip.
Qed.

Lemma split_from_cons (sep s : string) :
  forall k m, exists p ps, split_from sep k m s = p :: ps.
Proof.
  induction s as [|c s IH]; intros k m; simpl; [eauto|].
  destruct k as [|k]; [|apply IH].
  destruct (more_splits m && _); [eauto|].
  destruct (IH 0 m) as [p [ps ->]]. simpl. eauto.
Qed.

(** Where no separator starts, nothing is cut. *)
Lemma split_from_clear (sep a s : string) (m : option nat) :
  starts_nowhere sep a s = true ->
  split_from sep 0 m (a ++ s)
  = match split_from sep 0 m s with
    | p :: ps => (a ++ p) :: ps
    | [] => [a]
    end.
Proof.
  induction a as [|c a IH]; intros H.
  - simpl. destruct (split_from_cons sep s 0 m) as [p [ps ->]]. reflexivity.
  - cbn [starts_nowhere] in H. apply andb_true_iff in H as [Hp Hc].
    apply negb_true_iff in Hp.
    change (String c a ++ s) with (String c (a ++ s)) in *.
    cbn [split_from]. rewrite Hp, andb_false_r, (IH Hc).
    destruct (split_from sep 0 m s); reflexivity.
Qed.

Lemma lacks_starts_nowhere (c : ascii) (sep a s : string) :
  lacks c a = true -> starts_nowhere (String c sep) a s = true.
Proof.
  induction a as [|d a IH]; simpl; [reflexivity|].
  intros H. apply andb_true_iff in H as [Hd Ha].
  apply negb_true_iff, Ascii.eqb_neq in Hd.
  destruct (ascii_dec c d); [contradiction|]. simpl. auto.
Qed.

Lemma split_from_none (sep s : string) (m : option nat) :
  contains s sep = false -> split_from sep 0 m s = [s].
Proof.
  induction s as [|c s IH]; cbn [contains split_from]; [reflexivity|].
  intros H. apply orb_false_iff in H as [Hp Hc].
  now rewrite Hp, andb_false_r, (IH Hc).
Qed.

Lemma bucket_and_prefix_scheme (scheme bucket key : string) :
  lacks "/" scheme = true ->
  lacks "/" bucket = true ->
  contains (bucket ++ "/" ++ key) "//" = false ->
  bucket_and_prefix (scheme ++ "//" ++ bucket ++ "/" ++ key)
  = Returns (bucket, key).
Proof.
  intros Hs Hb Hk. unfold bucket_and_prefix, str_split.
  rewrite (split_from_clear "//" scheme) by (now apply lacks_starts_nowhere).
  rewrite (split_from_here "//") by (reflexivity || discriminate).
  cbn [one_less]. rewrite (split_from_none "//" _ None Hk).
  cbn [last_item rev app].
  rewrite (split_from_clear "/" bucket) by (now apply lacks_starts_nowhere).
  rewrite (split_from_here "/") by (reflexivity || discriminate).
  cbn [one_less]. rewrite split_from_exhausted.
  now rewrite append_nil_r.
Qed.

(** X6.  A location scheme//bucket/key, where neither the scheme nor the
    bucket holds a slash and no double slash occurs after the scheme's
    own, is read by list_objects as that bucket and that key, slashes of
    the key included. *)
Theorem bucket_and_prefix_of_location (scheme bucket key : string) :
  lacks "/" scheme = true ->
  lacks "/" bucket = true ->
  contains (bucket ++ "/" ++ key) "//" = false ->
  bucket_and_prefix (scheme ++ "//" ++ bucket ++ "/" ++ key)
  = Returns (bucket, key).
Proof. apply bucket_and_prefix_scheme. Qed.

(** X7.  A location that names a bucket and nothing below it (no slash after
    the scheme's double slash) cannot be unpacked into bucket and prefix:
    list_objects raises a ValueError on it. *)
Theorem bucket_and_prefix_needs_a_key (scheme bucket : string) :
  lacks "/" scheme = true ->
  lacks "/" bucket = true ->
  bucket_and_prefix (scheme ++ "//" ++ bucket)
  = Raises (ValueError "not enough values to unpack (expected 2, got 1)").
Proof.
  intros Hs Hb. unfold bucket_and_prefix, str_split.
  assert (forall sep, split_from (String "/" sep) 0 None bucket = [bucket]
                      /\ split_from (String "/" sep) 0 (Some 1) bucket
                         = [bucket]) as Hn.
  { intros sep. rewrite <- (append_nil_r bucket) at 1 3.
    rewrite !(split_from_clear (String "/" sep) bucket EmptyString)
      by (now apply lacks_starts_nowhere).
    simpl. now rewrite append_nil_r. }
  rewrite (split_from_clear "//" scheme) by (now apply lacks_starts_nowhere).
  rewrite (split_from_here "//") by (reflexivity || discriminate).
  cbn [one_less]. rewrite (proj1 (Hn "/")). cbn [last_item rev app].
  now rewrite (proj2 (Hn EmptyString)).
Qed.

(** X8.  For a location that holds the table's bucket once, followed by
    /root/path with a root folder free of slashes, s3_table_path is the
    path below the root folder. *)
Theorem path_below_root_of_location (before bucket root path : string) :
  bucket <> EmptyString ->
  starts_nowhere bucket before (bucket ++ "/" ++ root ++ "/" ++ path) = true ->
  contains ("/" ++ root ++ "/" ++ path) bucket = false ->
  lacks "/" root = true ->
  path_below_root (before ++ bucket ++ "/" ++ root ++ "/" ++ path) bucket
  = Returns path.
Proof.
  intros Hb Hclear Hnone Hroot. unfold path_below_root, str_split.
  destruct bucket as [|b0 bucket]; [contradiction|].
  rewrite (split_from_clear _ before) by assumption.
  rewrite (split_from_here (String b0 bucket)) by (assumption || reflexivity).
  cbn [one_less]. rewrite (split_from_none _ _ None Hnone).
  cbn [index nth_error].
  rewrite (split_from_here "/" (root ++ "/" ++ path))
    by (reflexivity || discriminate).
  cbn [one_less].
  rewrite (split_from_clear "/" root) by (now apply lacks_starts_nowhere).
  rewrite (split_from_here "/") by (reflexivity || discriminate).
  cbn [one_less]. rewrite split_from_exhausted.
  reflexivity.
Qed.

Lemma path_below_root_none (location bucket : string) :
  bucket <> EmptyString ->
  contains location bucket = false ->
  path_below_root location bucket = Raises IndexError.
Proof.
  intros Hb Hnone. unfold path_below_root, str_split.
  destruct bucket as [|b0 bucket]; [contradiction|].
  now rewrite (split_from_none _ _ None Hnone).
Qed.

(** X9.  When the table's bucket does not occur in the location, s3_table_path
    has no second piece to index: it raises an IndexError. *)
Theorem path_below_root_index_error (location bucket : string) :
  bucket <> EmptyString ->
  contains location bucket = false ->
  path_below_root location bucket = Raises IndexError.
Proof. apply path_below_root_none. Qed.

(** X10.  A copied file lands under s3_root/table_schema/table_name with its
    first folder removed, so two files that differ only in that folder
    are written to the same key; a file outside any folder keeps its
    name. *)
Theorem destination_key_drops_first_folder
        (s3_root table_schema table_name top rest : string) :
  lacks "/" top = true ->
  destination_key s3_root table_schema table_name (top ++ "/" ++ rest)
  = Returns (s3_root ++ "/" ++ table_schema ++ "/" ++ table_name
             ++ "/" ++ rest)
  /\ destination_key s3_root table_schema table_name top
     = Returns (s3_root ++ "/" ++ table_schema ++ "/" ++ table_name
                ++ "/" ++ top)
  /\ forall top', lacks "/" top' = true ->
       destination_key s3_root table_schema table_name (top' ++ "/" ++ rest)
       = destination_key s3_root table_schema table_name
           (top ++ "/" ++ rest).
Proof.
  assert (forall t, lacks "/" t = true ->
            after_first_slash (t ++ "/" ++ rest) = Returns rest) as Hafter.
  { intros t Ht. unfold after_first_slash, str_split.
    rewrite (split_from_clear "/" t) by (now apply lacks_starts_nowhere).
    rewrite (split_from_here "/") by (reflexivity || discriminate).
    cbn [one_less]. now rewrite split_from_exhausted. }
  intros Ht. unfold destination_key. repeat split.
  - now rewrite Hafter.
  - unfold after_first_slash, str_split.
    rewrite <- (append_nil_r top) at 1.
    rewrite (split_from_clear "/" top EmptyString)
      by (now apply lacks_starts_nowhere).
    simpl. now rewrite append_nil_r.
  - intros top' Ht'. now rewrite !Hafter.
Qed.

(** * The table-management methods *)

Import AthenaTable.

Lemma then_returns {A B : Type} (m : Run A) (k : A -> Run B)
      (w w' : World) (b : B) :
  then_ m k w = (w', Returns b) ->
  exists w1 a, m w = (w1, Returns a) /\ k a w1 = (w', Returns b).
Proof.
  unfold then_. destruct (m w) as [w1 [a|e]]; [eauto | discriminate].
Qed.

Lemma AccessType_eqb_eq (a b : AccessType) :
  AccessType_eqb a b = true <-> a = b.
Proof.
  destruct a, b; simpl; try (split; [discriminate | congruence]);
    try tauto.
  rewrite String.eqb_eq. split; congruence.
Qed.

Lemma SourceType_eqb_eq (a b : SourceType) :
  SourceType_eqb a b = true <-> a = b.
Proof.
  destruct a, b; simpl; try (split; [discriminate | congruence]);
    try tauto.
  rewrite String.eqb_eq. split; congruence.
Qed.

Lemma external_run (env : Services) (ev : Event) (w : World) :
  external env ev w
  = match raises env (log w) ev with
    | Some what => (w, Raises (ExternalError what))
    | None => ({| self := self w; log := (log w ++ [ev])%list |}, Returns tt)
    end.
Proof. reflexivity. Qed.

Lemma external_returns (env : Services) (ev : Event) (w w' : World) a :
  external env ev w = (w', Returns a) ->
  raises env (log w) ev = None
  /\ w' = {| self := self w; log := (log w ++ [ev])%list |}.
Proof.
  rewrite external_run. destruct (raises env (log w) ev); [discriminate|].
  intros H. inversion H. auto.
Qed.

Lemma set_glue_dictionary_run (env : Services) (w : World) :
  set_glue_dictionary env w
  = match raises env (log w) SetGlueDictionary with
    | Some what => (w, Raises (ExternalError what))
    | None => (refreshed env w, Returns tt)
    end.
Proof.
  unfold set_glue_dictionary, then_. rewrite external_run.
  destruct (raises env (log w) SetGlueDictionary); reflexivity.
Qed.

Lemma set_glue_dictionary_returns (env : Services) (w w' : World) a :
  set_glue_dictionary env w = (w', Returns a) ->
  raises env (log w) SetGlueDictionary = None /\ w' = refreshed env w.
Proof.
  rewrite set_glue_dictionary_run.
  destruct (raises env (log w) SetGlueDictionary); [discriminate|].
  intros H. inversion H. auto.
Qed.

Lemma refreshed_up_to_date (env : Services) (w : World) :
  up_to_date env (self w) ->
  refreshed env w
  = {| self := self w; log := (log w ++ [SetGlueDictionary])%list |}.
Proof. intros H. unfold refreshed. now rewrite H. Qed.

(** Invert a run that returned, statement by statement. *)
Ltac returned H :=
  repeat match type of H with
         | then_ _ _ _ = (_, Returns _) =>
             let w1 := fresh "w" in
             let a := fresh "a" in
             let H1 := fresh "R" in
             apply then_returns in H as [w1 [a [H1 H]]]
         end.

Ltac primitive H :=
  match type of H with
  | get_self _ = (_, Returns _) => unfold get_self in H; inversion H; subst; clear H
  | set_self _ _ = (_, Returns _) => unfold set_self in H; inversion H; subst; clear H
  | unit_ _ _ = (_, Returns _) => unfold unit_ in H; inversion H; subst; clear H
  | ask _ _ = (_, Returns _) => unfold ask in H; inversion H; subst; clear H
  | lift _ _ = (_, Returns _) => unfold lift in H; inversion H; subst; clear H
  | set_glue_dictionary _ _ = (_, Returns _) =>
      let N := fresh "N" in
      apply set_glue_dictionary_returns in H as [N H]; subst
  | external _ _ _ = (_, Returns _) =>
      let N := fresh "N" in
      apply external_returns in H as [N H]; subst
  end.

Ltac branch H :=
  match type of H with
  | context [if ?b then _ else _] =>
      let E := fresh "E" in destruct b eqn:E
  end.

Lemma assert_returns (b : bool) (msg : string) (w w' : World) a :
  assert_ b msg w = (w', Returns a) -> b = true /\ w' = w.
Proof.
  unfold assert_. destruct b; [|discriminate].
  unfold unit_. intros H. inversion H. auto.
Qed.

(** X11.  A table built by the constructor is READONLY whatever access type was
    asked for, so dropping it raises the assertion before anything is
    sent out. *)
Theorem drop_after_init_always_raises
        (env : Services) (table_schema table_name : string)
        (access : AccessType) (source : SourceType) (l : list Event) :
  let me := __init__ table_schema table_name access source in
  access_type me = READONLY
  /\ drop env {| self := me; log := l |}
     = ({| self := me; log := l |},
        Raises (AssertionError
                  ("You are trying to drop a table (" ++ str_self env me
                   ++ ") with table_type != " ++ str_access env OVERWRITE))).
Proof. split; reflexivity. Qed.

Lemma drop_returns (env : Services) (w w' : World) u :
  drop env w = (w', Returns u) ->
  access_type (self w) = OVERWRITE
  /\ truthy (glue_definition (self w')) = false
  /\ access_type (self w') = OVERWRITE
  /\ (if truthy (glue_definition (self w))
      then log w' = (log w ++ [TableDrop (table_name (self w))])%list
      else w' = w).
Proof.
  unfold drop. intros H. returned H. primitive R.
  apply assert_returns in R0 as [Ha ->]. apply AccessType_eqb_eq in Ha.
  destruct (truthy (glue_definition (self w0))) eqn:Eg.
  - returned H. primitive R. primitive R0. primitive H. simpl. auto.
  - primitive H. rewrite Eg. auto.
Qed.

(** X12.  Dropping is idempotent: after a drop that returned the object has no
    glue definition, and a second drop returns at once without sending
    anything. *)
Theorem drop_twice (env : Services) (w w' : World) :
  drop env w = (w', Returns tt) ->
  truthy (glue_definition (self w')) = false
  /\ drop env w' = (w', Returns tt).
Proof.
  intros H. apply drop_returns in H as [_ [Hg [Ha _]]]. split; [exact Hg|].
  unfold drop, then_, get_self. rewrite Ha. simpl. now rewrite Hg.
Qed.

Lemma repair_returns (env : Services) (w w' : World) u :
  repair env w = (w', Returns u) ->
  truthy (glue_definition (self (refreshed env w))) = true
  /\ presto_table_type env (log (refreshed env w)) (self (refreshed env w))
     <> VIRTUAL_VIEW
  /\ w' = {| self := self (refreshed env w);
             log := (log (refreshed env w)
                     ++ [msck (self (refreshed env w))])%list |}.
Proof.
  unfold repair. intros H. returned H.
  primitive R. primitive R0. apply assert_returns in R1 as [Hg ->].
  primitive R2. apply assert_returns in R3 as [Hk ->].
  primitive H. repeat split; auto.
  intros E. simpl in E. rewrite E in Hk. discriminate.
Qed.

Lemma s3_table_path_returns (env : Services) (w w' : World) ans :
  s3_table_path env w = (w', Returns ans) -> w' = refreshed env w.
Proof.
  unfold s3_table_path. intros H. returned H. primitive R. primitive R0.
  branch H.
  - returned H. primitive R. primitive R0. now primitive H.
  - now primitive H.
Qed.

Lemma list_objects_returns (env : Services) (w w' : World) keys :
  list_objects env w = (w', Returns keys) ->
  self w' = self (refreshed env w)
  /\ exists listing,
      log w' = (log (refreshed env w) ++ listing)%list
      /\ filter is_delete listing = [].
Proof.
  unfold list_objects. intros H. returned H. primitive R. primitive R0.
  match type of H with
  | context [match ?k with UNKNOWN => _ | _ => _ end] => destruct k
  end;
    try (primitive H; split; [reflexivity|]; exists [];
         now rewrite app_nil_r).
  returned H. primitive R. primitive R0. primitive R1. primitive R2.
  primitive R3.
  match type of H with
  | context [match ?k with Some _ => _ | None => _ end] => destruct k
  end; primitive H;
    (split; [reflexivity|]); eexists; split; reflexivity.
Qed.

Lemma delete_each_returns (env : Services) (keys : list string) :
  forall w w' a,
    for_each keys
      (fun key => me' <- get_self ;;;
                  external env (DeleteObject (table_bucket me') key)) w
    = (w', Returns a) ->
    w' = {| self := self w;
            log := (log w
                    ++ map (DeleteObject (table_bucket (self w))) keys)%list |}.
Proof.
  induction keys as [|key keys IH]; intros w w' u H; simpl in H.
  - primitive H. rewrite app_nil_r. now destruct w'.
  - returned H. returned R. primitive R0. primitive R.
    apply IH in H. subst w'. simpl. now rewrite <- app_assoc.
Qed.

Lemma empty_returns
        (env : Services) (w w' : World) :
  up_to_date env (self w) ->
  empty env w = (w', Returns tt) ->
  access_type (self w) = OVERWRITE
  /\ self w' = self w
  /\ exists msg w1 w2 keys,
      self w1 = self w
      /\ log w1
         = (log w ++ [SetGlueDictionary; SetGlueDictionary; Print msg])%list
      /\ list_objects env w1 = (w2, Returns keys)
      /\ log w'
         = (log w2
            ++ map (DeleteObject (table_bucket (self w))) keys
            ++ [SetGlueDictionary; SetGlueDictionary; msck (self w)])%list
      /\ filter is_delete (log w')
         = (filter is_delete (log w)
            ++ map (DeleteObject (table_bucket (self w))) keys)%list.
Proof.
  intros Hup H. unfold empty in H. returned H.
  primitive R. primitive R0. apply assert_returns in R1 as [Ha ->].
  apply AccessType_eqb_eq in Ha. primitive R2.
  apply s3_table_path_returns in R3. subst w4. primitive R4.
  apply delete_each_returns in R6. subst w7.
  primitive R7. apply repair_returns in H as [_ [_ ->]].
  pose proof (list_objects_returns _ _ _ _ R5) as [Hself [listing [Hl Hd]]].
  unfold refreshed in *. cbn [self log] in *.
  pose proof Hup as Hme. unfold up_to_date in Hme.
  repeat match goal with
         | H : context [fetched env _ (self w)] |- _ => rewrite Hme in H
         end.
  rewrite Hself. rewrite ?Hme.
  split; [exact Ha|]. split; [reflexivity|].
  eexists _, _, w6, a5.
  split; [|split; [|split; [exact R5|]]].
  - reflexivity.
  - cbn [log]. rewrite <- !app_assoc. reflexivity.
  - split.
    + rewrite <- !app_assoc. reflexivity.
    + rewrite Hl. rewrite !filter_app. cbn [filter is_delete].
      rewrite Hd, !app_nil_r.
      assert (forall b ks, filter is_delete (map (DeleteObject b) ks)
                           = map (DeleteObject b) ks) as Hm.
      { intros b ks. induction ks; simpl; congruence. }
      now rewrite Hm.
Qed.

(** X13.  An empty that returns has deleted, from the object's own
    table_bucket, exactly the keys that list_objects returned and in that
    order -- wherever the glue location says the table is -- and then
    repaired the table.  The object is here up to date with the
    catalog. *)
Theorem empty_deletes_the_listed_keys
        (env : Services) (w w' : World) :
  up_to_date env (self w) ->
  empty env w = (w', Returns tt) ->
  access_type (self w) = OVERWRITE
  /\ self w' = self w
  /\ exists msg w1 w2 keys,
      self w1 = self w
      /\ log w1
         = (log w ++ [SetGlueDictionary; SetGlueDictionary; Print msg])%list
      /\ list_objects env w1 = (w2, Returns keys)
      /\ log w'
         = (log w2
            ++ map (DeleteObject (table_bucket (self w))) keys
            ++ [SetGlueDictionary; SetGlueDictionary; msck (self w)])%list
      /\ filter is_delete (log w')
         = (filter is_delete (log w)
            ++ map (DeleteObject (table_bucket (self w))) keys)%list.
Proof. apply empty_returns. Qed.

(** X14.  A purge that returns leaves the object without a glue definition.
    When the catalog had no definition for the table, all it did was ask
    the catalog; otherwise it emptied the table and its last call out was
    the drop of the table. *)
Theorem purge_leaves_no_definition (env : Services) (w w' : World) :
  purge env w = (w', Returns tt) ->
  truthy (glue_definition (self w')) = false
  /\ (truthy (glue_definition (self (refreshed env w))) = false ->
      w' = refreshed env w)
  /\ (truthy (glue_definition (self (refreshed env w))) = true ->
      exists w1 w2,
        empty env (refreshed env w) = (w1, Returns tt)
        /\ drop env w1 = (w2, Returns tt)
        /\ w' = w2
        /\ exists l, log w' = (l ++ [TableDrop (table_name (self w1))])%list).
Proof.
  unfold purge. intros H. returned H. primitive R. primitive R0.
  change (self (refreshed env w))
    with (fetched env (log w ++ [SetGlueDictionary])%list (self w)).
  branch H; rename E into Eg.
  - returned H. destruct a0.
    pose proof (drop_returns _ _ _ _ H) as [_ [Hg [_ Hl]]].
    split; [exact Hg|]. split; [discriminate|]. intros _.
    exists w0, w'. repeat split; auto.
    assert (truthy (glue_definition (self w0)) = true) as Hg0.
    { unfold empty in R. returned R.
      apply repair_returns in R as [Ht [_ ->]]. exact Ht. }
    rewrite Hg0 in Hl. eauto.
  - primitive H. split; [exact Eg|]. split; [reflexivity | discriminate].
Qed.

(** X15.  For a view or a table of unknown type list_objects answers the empty
    list without asking S3.  For any other table whose location is
    scheme//bucket/key it asks S3 for that bucket and that key prefix,
    once, and answers the keys S3 lists (none when the listing has no
    contents). *)
Theorem list_objects_asks_for_the_location
        (env : Services) (w : World) :
  raises env (log w) SetGlueDictionary = None ->
  let w1 := refreshed env w in
  (presto_table_type env (log w1) (self w1) = VIRTUAL_VIEW
   \/ presto_table_type env (log w1) (self w1) = UNKNOWN ->
   list_objects env w = (w1, Returns []))
  /\ (forall name scheme bucket key columns,
         presto_table_type env (log w1) (self w1) = OtherTable name ->
         glue_definition (self w1)
         = Dict (Some (mkGlueTable (scheme ++ "//" ++ bucket ++ "/" ++ key)
                                   columns)) ->
         lacks "/" scheme = true ->
         lacks "/" bucket = true ->
         contains (bucket ++ "/" ++ key) "//" = false ->
         raises env (log w1) (ListObjects bucket key) = None ->
         list_objects env w
         = ({| self := self w1;
               log := (log w1 ++ [ListObjects bucket key])%list |},
            Returns
              (match listed env (log w1 ++ [ListObjects bucket key])%list
                       bucket key with
               | Some keys => keys
               | None => []
               end))).
Proof.
  intros N w1. split.
  - intros Hk. unfold list_objects, then_.
    rewrite set_glue_dictionary_run, N. fold w1. unfold ask.
    destruct Hk as [-> | ->]; reflexivity.
  - intros name scheme bucket key columns Hk Hg Hs Hb Hc Hr.
    unfold list_objects, then_.
    rewrite set_glue_dictionary_run, N. fold w1. unfold ask.
    rewrite Hk. unfold get_self, lift. rewrite Hg.
    cbn [storage_descriptor Location].
    rewrite bucket_and_prefix_scheme by assumption.
    cbn [fst snd]. rewrite external_run, Hr. cbn [log self].
    destruct (listed env _ bucket key); reflexivity.
Qed.

(** X16.  However populate_from_source went about the files -- whatever the
    source type, and also when there was nothing to copy -- a run that
    returns has ended with a repair: the table was then defined, and the
    last calls out were a catalog refresh and its MSCK REPAIR TABLE. *)
Theorem populate_from_source_ends_with_repair
        (env : Services) (ymd : string) (files_are_parquet : bool)
        (w w' : World) :
  populate_from_source env ymd files_are_parquet w = (w', Returns tt) ->
  truthy (glue_definition (self w')) = true
  /\ exists l, log w' = (l ++ [SetGlueDictionary; msck (self w')])%list.
Proof.
  unfold populate_from_source. intros H.
  apply then_returns in H as [w1 [a [_ H]]].
  apply then_returns in H as [w2 [me [_ H]]].
  apply then_returns in H as [w3 [u [_ H]]].
  apply repair_returns in H as [Hg [_ ->]]. split; [exact Hg|].
  exists (log w3). cbn [self log]. unfold refreshed. cbn [self log].
  now rewrite <- app_assoc.
Qed.

(** ** Copying the source files *)

Lemma copy_in_returns (env : Services) (source_bucket _file : string)
      (w w' : World) u :
  copy_in env source_bucket _file w = (w', Returns u) ->
  exists key,
    destination_key (s3_root env (log w) (self w))
      (table_schema (self w)) (table_name (self w)) _file = Returns key
    /\ w' = {| self := self w;
               log := (log w ++ [Copy source_bucket _file
                                   (table_bucket (self w)) key])%list |}.
Proof.
  unfold copy_in. intros H. returned H. primitive R. primitive R0.
  primitive R1. primitive H. eauto.
Qed.

Lemma incoming_loop (env : Services) (root : string) (files : list string) :
  forall w w' u,
    source_type (self w) = INCOMING ->
    (forall l, s3_root env l (self w) = root) ->
    for_each files
      (fun _file =>
         me' <- get_self ;;;
         match source_type me' with
         | INCOMING =>
             copy_in env _DEFAULT_BUCKET _file ;;;
             external env (DeleteObject (table_bucket me') _file)
         | LEGACY =>
             if _current_file env _file
             then copy_in env "legacy-raw-data-qa" _file
             else unit_ tt
         | _ => unit_ tt
         end) w = (w', Returns u) ->
    self w' = self w
    /\ exists moves,
        Forall2 (moved root (self w)) files moves
        /\ log w' = (log w ++ concat moves)%list.
Proof.
  induction files as [|f files IH]; intros w w' u Hs Hr H; simpl in H.
  - primitive H. split; [reflexivity|]. exists []. split; [constructor|].
    simpl. now rewrite app_nil_r.
  - returned H. returned R. primitive R0. rewrite Hs in R. returned R.
    apply copy_in_returns in R0 as [key [Hk ->]]. primitive R.
    apply IH in H as [Hself [moves [Hm Hl]]]; [|exact Hs|exact Hr].
    cbn [self log] in *. split; [exact Hself|].
    eexists (_ :: moves). split.
    + constructor; [|exact Hm]. exists key. rewrite Hr in Hk.
      split; [exact Hk | reflexivity].
    + rewrite Hl. simpl. now rewrite <- !app_assoc.
Qed.

Lemma legacy_loop (env : Services) (root : string) (files : list string) :
  forall w w' u,
    source_type (self w) = LEGACY ->
    (forall l, s3_root env l (self w) = root) ->
    for_each files
      (fun _file =>
         me' <- get_self ;;;
         match source_type me' with
         | INCOMING =>
             copy_in env _DEFAULT_BUCKET _file ;;;
             external env (DeleteObject (table_bucket me') _file)
         | LEGACY =>
             if _current_file env _file
             then copy_in env "legacy-raw-data-qa" _file
             else unit_ tt
         | _ => unit_ tt
         end) w = (w', Returns u) ->
    self w' = self w
    /\ exists copies,
        Forall2 (copied "legacy-raw-data-qa" root (self w))
                (filter (_current_file env) files) copies
        /\ log w' = (log w ++ copies)%list.
Proof.
  induction files as [|f files IH]; intros w w' u Hs Hr H; simpl in H.
  - primitive H. split; [reflexivity|]. exists []. split; [constructor|].
    now rewrite app_nil_r.
  - returned H. returned R. primitive R0. rewrite Hs in R.
    cbn [filter]. destruct (_current_file env f).
    + apply copy_in_returns in R as [key [Hk ->]].
      apply IH in H as [Hself [copies [Hm Hl]]]; [|exact Hs|exact Hr].
      cbn [self log] in *. split; [exact Hself|].
      eexists (_ :: copies). split.
      * constructor; [|exact Hm]. exists key. rewrite Hr in Hk.
        split; [exact Hk | reflexivity].
      * rewrite Hl. now rewrite <- !app_assoc.
    + primitive R. apply IH in H; auto.
Qed.

Lemma production_loop (env : Services) (root : string)
      (files : list string) :
  forall w w' u,
    (forall l, s3_root env l (self w) = root) ->
    for_each files (fun _file => copy_in env "my-prod-bucket" _file) w
    = (w', Returns u) ->
    self w' = self w
    /\ exists copies,
        Forall2 (copied "my-prod-bucket" root (self w)) files copies
        /\ log w' = (log w ++ copies)%list.
Proof.
  induction files as [|f files IH]; intros w w' u Hr H; simpl in H.
  - primitive H. split; [reflexivity|]. exists []. split; [constructor|].
    now rewrite app_nil_r.
  - returned H. apply copy_in_returns in R as [key [Hk ->]].
    apply IH in H as [Hself [copies [Hm Hl]]]; [|exact Hr].
    cbn [self log] in *. split; [exact Hself|].
    eexists (_ :: copies). split.
    + constructor; [|exact Hm]. exists key. rewrite Hr in Hk.
      split; [exact Hk | reflexivity].
    + rewrite Hl. now rewrite <- !app_assoc.
Qed.

(** X17.  With source type INCOMING, a populate_from_source that returns has
    emptied the table and then, for every file that listen() gave and in
    that order, copied it from the default bucket into the table's folder
    and deleted it from table_bucket, before the final repair.  When
    listen() gave nothing the table is not emptied.  The object is here
    up to date with the catalog and s3_root is fixed. *)
Theorem populate_incoming_moves_every_file
        (env : Services) (ymd : string) (files_are_parquet : bool)
        (root : string) (w w' : World) :
  up_to_date env (self w) ->
  source_type (self w) = INCOMING ->
  (forall l, s3_root env l (self w) = root) ->
  populate_from_source env ymd files_are_parquet w = (w', Returns tt) ->
  let start :=
    {| self := self w;
       log := (log w ++ [SetGlueDictionary; Listen None])%list |} in
  let files := listened env (log start) (self w) None in
  self w' = self w
  /\ (files = [] ->
      log w' = (log start ++ [SetGlueDictionary; msck (self w)])%list)
  /\ (files <> [] ->
      exists w1 moves,
        empty env start = (w1, Returns tt)
        /\ Forall2 (moved root (self w)) files moves
        /\ log w'
           = (log w1 ++ concat moves
              ++ [SetGlueDictionary; msck (self w)])%list).
Proof.
  intros Hup Hs Hr H start files.
  unfold populate_from_source in H.
  apply then_returns in H as [w1 [u1 [R H]]]. primitive R.
  apply then_returns in H as [w2 [me [R H]]]. primitive R.
  apply then_returns in H as [w3 [u3 [R H]]].
  rewrite (refreshed_up_to_date _ _ Hup) in *. cbn [self log] in *.
  pose proof Hup as Hme. unfold up_to_date in Hme.
  rewrite !Hme in R. rewrite Hs in R.
  apply then_returns in R as [w4 [u4 [R0 R]]]. primitive R0.
  apply then_returns in R as [w5 [found [R0 R]]]. primitive R0.
  cbn [self log] in *.
  assert (log start = ((log w ++ [SetGlueDictionary]) ++ [Listen None])%list)
    as Hstart by (unfold start; cbn [log]; now rewrite <- app_assoc).
  rewrite <- Hstart in R.
  change {| self := self w; log := log start |} with start in R.
  subst files.
  destruct (listened env (log start) (self w) None) as [|f fs] eqn:Ef.
  - primitive R. apply repair_returns in H as [_ [_ ->]].
    rewrite refreshed_up_to_date by exact Hup. cbn [self log].
    split; [reflexivity|]. split; [|congruence].
    intros _. now rewrite <- app_assoc.
  - apply then_returns in R as [w6 [u6 [R0 R]]].
    destruct u6.
    pose proof (empty_returns env start w6 Hup R0) as [_ [Hself _]].
    change (self start) with (self w) in Hself.
    apply incoming_loop with (root := root) in R
      as [Hself' [moves [Hm Hl]]];
      [|rewrite Hself; exact Hs|rewrite Hself; exact Hr].
    apply repair_returns in H as [_ [_ ->]].
    assert (self w3 = self w) as Hw3 by congruence.
    rewrite refreshed_up_to_date by (rewrite Hw3; exact Hup).
    cbn [self log]. rewrite Hw3.
    split; [reflexivity|]. split; [discriminate|]. intros _.
    exists w6, moves. split; [exact R0|].
    rewrite Hself in Hm. split; [exact Hm|].
    rewrite Hl. now rewrite <- !app_assoc.
Qed.

(** X18.  With source type LEGACY, a populate_from_source that returns has
    emptied the table and then copied in, from the legacy bucket and in
    order, the files of listen() that _current_file accepts -- and deleted
    none of them -- before the final repair.  When listen() gave nothing
    the table is not emptied. *)
Theorem populate_legacy_copies_current_files
        (env : Services) (ymd : string) (files_are_parquet : bool)
        (root : string) (w w' : World) :
  up_to_date env (self w) ->
  source_type (self w) = LEGACY ->
  (forall l, s3_root env l (self w) = root) ->
  populate_from_source env ymd files_are_parquet w = (w', Returns tt) ->
  let start :=
    {| self := self w;
       log := (log w ++ [SetGlueDictionary; Listen None])%list |} in
  let files := listened env (log start) (self w) None in
  self w' = self w
  /\ (files = [] ->
      log w' = (log start ++ [SetGlueDictionary; msck (self w)])%list)
  /\ (files <> [] ->
      exists w1 copies,
        empty env start = (w1, Returns tt)
        /\ Forall2 (copied "legacy-raw-data-qa" root (self w))
                   (filter (_current_file env) files) copies
        /\ log w'
           = (log w1 ++ copies
              ++ [SetGlueDictionary; msck (self w)])%list
        /\ filter is_delete copies = []).
Proof.
  intros Hup Hs Hr H start files.
  unfold populate_from_source in H.
  apply then_returns in H as [w1 [u1 [R H]]]. primitive R.
  apply then_returns in H as [w2 [me [R H]]]. primitive R.
  apply then_returns in H as [w3 [u3 [R H]]].
  rewrite (refreshed_up_to_date _ _ Hup) in *. cbn [self log] in *.
  pose proof Hup as Hme. unfold up_to_date in Hme.
  rewrite !Hme in R. rewrite Hs in R.
  apply then_returns in R as [w4 [u4 [R0 R]]]. primitive R0.
  apply then_returns in R as [w5 [found [R0 R]]]. primitive R0.
  cbn [self log] in *.
  assert (log start = ((log w ++ [SetGlueDictionary]) ++ [Listen None])%list)
    as Hstart by (unfold start; cbn [log]; now rewrite <- app_assoc).
  rewrite <- Hstart in R.
  change {| self := self w; log := log start |} with start in R.
  subst files.
  destruct (listened env (log start) (self w) None) as [|f fs] eqn:Ef.
  - primitive R. apply repair_returns in H as [_ [_ ->]].
    rewrite refreshed_up_to_date by exact Hup. cbn [self log].
    split; [reflexivity|]. split; [|congruence].
    intros _. now rewrite <- app_assoc.
  - apply then_returns in R as [w6 [u6 [R0 R]]].
    destruct u6.
    pose proof (empty_returns env start w6 Hup R0) as [_ [Hself _]].
    change (self start) with (self w) in Hself.
    apply legacy_loop with (root := root) in R
      as [Hself' [moves [Hm Hl]]];
      [|rewrite Hself; exact Hs|rewrite Hself; exact Hr].
    apply repair_returns in H as [_ [_ ->]].
    assert (self w3 = self w) as Hw3 by congruence.
    rewrite refreshed_up_to_date by (rewrite Hw3; exact Hup).
    cbn [self log]. rewrite Hw3.
    split; [reflexivity|]. split; [discriminate|]. intros _.
    exists w6, moves. split; [exact R0|].
    rewrite Hself in Hm. split; [exact Hm|].
    split; [rewrite Hl; now rewrite <- !app_assoc|].
    clear -Hm. induction Hm as [|x y xs ys [key [_ ->]] _ IH]; simpl; auto.
Qed.

(** X19.  With source type PRODUCTION, a populate_from_source that returns has
    emptied the table and then copied in from the production bucket, in
    order, exactly the files of listen() whose name contains the day asked
    for, before the final repair.  When no file is of that day the table
    is not emptied. *)
Theorem populate_production_copies_files_of_the_day
        (env : Services) (ymd : string) (files_are_parquet : bool)
        (root : string) (w w' : World) :
  up_to_date env (self w) ->
  source_type (self w) = PRODUCTION ->
  (forall l, s3_root env l (self w) = root) ->
  populate_from_source env ymd files_are_parquet w = (w', Returns tt) ->
  let start :=
    {| self := self w;
       log := (log w ++ [SetGlueDictionary; Listen (Some files_are_parquet)])%list |} in
  let files :=
    filter (fun f => contains f ymd)
           (listened env (log start) (self w) (Some files_are_parquet)) in
  self w' = self w
  /\ (files = [] ->
      log w' = (log start ++ [SetGlueDictionary; msck (self w)])%list)
  /\ (files <> [] ->
      exists w1 copies,
        empty env start = (w1, Returns tt)
        /\ Forall2 (copied "my-prod-bucket" root (self w)) files copies
        /\ log w'
           = (log w1 ++ copies
              ++ [SetGlueDictionary; msck (self w)])%list).
Proof.
  intros Hup Hs Hr H start files.
  unfold populate_from_source in H.
  apply then_returns in H as [w1 [u1 [R H]]]. primitive R.
  apply then_returns in H as [w2 [me [R H]]]. primitive R.
  apply then_returns in H as [w3 [u3 [R H]]].
  rewrite (refreshed_up_to_date _ _ Hup) in *. cbn [self log] in *.
  pose proof Hup as Hme. unfold up_to_date in Hme.
  rewrite !Hme in R. rewrite Hs in R.
  apply then_returns in R as [w4 [u4 [R0 R]]]. primitive R0.
  apply then_returns in R as [w5 [found [R0 R]]]. primitive R0.
  cbn [self log] in *.
  assert (log start = ((log w ++ [SetGlueDictionary]) ++ [Listen (Some files_are_parquet)])%list)
    as Hstart by (unfold start; cbn [log]; now rewrite <- app_assoc).
  rewrite <- Hstart in R.
  change {| self := self w; log := log start |} with start in R.
  subst files.
  destruct (filter (fun f => contains f ymd)
              (listened env (log start) (self w) (Some files_are_parquet)))
    as [|f fs] eqn:Ef.
  - primitive R. apply repair_returns in H as [_ [_ ->]].
    rewrite refreshed_up_to_date by exact Hup. cbn [self log].
    split; [reflexivity|]. split; [|congruence].
    intros _. now rewrite <- app_assoc.
  - apply then_returns in R as [w6 [u6 [R0 R]]].
    destruct u6.
    pose proof (empty_returns env start w6 Hup R0) as [_ [Hself _]].
    change (self start) with (self w) in Hself.
    apply production_loop with (root := root) in R
      as [Hself' [moves [Hm Hl]]];
      [|rewrite Hself; exact Hr].
    apply repair_returns in H as [_ [_ ->]].
    assert (self w3 = self w) as Hw3 by congruence.
    rewrite refreshed_up_to_date by (rewrite Hw3; exact Hup).
    cbn [self log]. rewrite Hw3.
    split; [reflexivity|]. split; [discriminate|]. intros _.
    exists w6, moves. split; [exact R0|].
    rewrite Hself in Hm. split; [exact Hm|].
    rewrite Hl. now rewrite <- !app_assoc.
Qed.

(** X20.  A table whose glue location does not hold the object's table_bucket
    cannot be emptied: the message that empty prints needs s3_table_path,
    which raises an IndexError, so the run stops before anything is
    printed, listed or deleted.  (Or a catalog call raised before.) *)
Theorem empty_outside_table_bucket_raises
        (env : Services) (w : World) (table : GlueTable) :
  up_to_date env (self w) ->
  access_type (self w) = OVERWRITE ->
  glue_definition (self w) = Dict (Some table) ->
  table_bucket (self w) <> EmptyString ->
  contains (Location table) (table_bucket (self w)) = false ->
  exists w' e,
    empty env w = (w', Raises e)
    /\ (e = IndexError \/ exists what, e = ExternalError what)
    /\ self w' = self w
    /\ (log w' = log w
        \/ log w' = (log w ++ [SetGlueDictionary])%list
        \/ log w' = (log w ++ [SetGlueDictionary; SetGlueDictionary])%list).
Proof.
  intros Hup Ha Hg Hb Hc. unfold empty, then_.
  rewrite set_glue_dictionary_run.
  destruct (raises env (log w) SetGlueDictionary) as [what|] eqn:N1.
  { exists w, (ExternalError what). eauto 8. }
  rewrite (refreshed_up_to_date _ _ Hup). unfold get_self. cbn [self log].
  rewrite Ha. cbn [AccessType_eqb assert_ unit_]. unfold ask.
  cbn [self log]. unfold s3_table_path, then_.
  rewrite set_glue_dictionary_run. cbn [log].
  destruct (raises env (log w ++ [SetGlueDictionary]) SetGlueDictionary)
    as [what|] eqn:N2.
  { eexists _, (ExternalError what). cbn [self log]. eauto 8. }
  rewrite refreshed_up_to_date by exact Hup. unfold get_self.
  cbn [self log]. rewrite Hg. cbn [truthy storage_descriptor lift].
  rewrite (path_below_root_none _ _ Hb Hc).
  eexists _, IndexError. cbn [self log]. repeat split; eauto.
  right. right. now rewrite <- app_assoc.
Qed.

(** X21.  The constructor makes every table READONLY, so unless the catalog
    refresh changes the access type, a freshly built object cannot be
    emptied either: empty raises after asking the catalog at most once,
    and deletes nothing. *)
Theorem empty_after_init_always_raises
        (env : Services) (table_schema table_name : string)
        (access : AccessType) (source : SourceType) (l : list Event) :
  (forall l' me, access_type (fetched env l' me) = access_type me) ->
  exists w' e,
    empty env
      {| self := __init__ table_schema table_name access source; log := l |}
    = (w', Raises e)
    /\ ((exists msg, e = AssertionError msg)
        \/ exists what, e = ExternalError what)
    /\ (log w' = l \/ log w' = (l ++ [SetGlueDictionary])%list).
Proof.
  intros Hacc. unfold empty, then_. rewrite set_glue_dictionary_run.
  cbn [log].
  destruct (raises env l SetGlueDictionary) as [what|].
  { eexists _, _. split; [reflexivity|]. cbn [log]. eauto. }
  unfold get_self, refreshed. cbn [self log]. rewrite Hacc.
  cbn [__init__ access_type AccessType_eqb assert_ raise].
  eexists _, _. split; [reflexivity|]. cbn [log]. eauto.
Qed.

(** X22.  A build_from_sql that returns was asked of a table whose source type
    is ATHENA; it read the statement, purged the table, executed the
    statement, and ended with a repair: the table it built is defined,
    and after the statement only two catalog refreshes and the MSCK REPAIR
    TABLE went out. *)
Theorem build_from_sql_ends_repaired
        (env : Services) (w w' : World) :
  build_from_sql env w = (w', Returns tt) ->
  source_type (self (refreshed env w)) = ATHENA
  /\ truthy (glue_definition (self w')) = true
  /\ exists path w1 w2 stmt,
      source_path (self (refreshed env w)) = Some path
      /\ log w1 = (log (refreshed env w) ++ [ReadFile path])%list
      /\ stmt = file_text env (log w1) path
      /\ purge env w1 = (w2, Returns tt)
      /\ log w'
         = (log w2 ++ [Execute stmt; SetGlueDictionary; SetGlueDictionary;
                       msck (self w')])%list.
Proof.
  unfold build_from_sql. intros H. returned H.
  primitive R. primitive R0. apply assert_returns in R1 as [Hs ->].
  apply SourceType_eqb_eq in Hs.
  unfold read_source in R2. returned R2. primitive R.
  change (self (refreshed env w))
    with (fetched env (log w ++ [SetGlueDictionary])%list (self w)).
  destruct (source_path (fetched env (log w ++ [SetGlueDictionary])%list
                           (self w))) as [path|] eqn:Ep;
    [|discriminate].
  returned R2. primitive R. primitive R2.
  destruct a3. primitive R4. primitive R5.
  apply repair_returns in H as [Hg [_ ->]].
  split; [exact Hs|]. split; [exact Hg|].
  match type of R3 with
  | purge env ?x = _ => exists path, x, w4; eexists
  end.
  split; [reflexivity|]. split; [reflexivity|]. split; [reflexivity|].
  split; [exact R3|].
  unfold refreshed. cbn [self log]. now rewrite <- !app_assoc.
Qed.

(** * The further theorems at concrete inputs *)

Lemma cast_dataframe_is_normalize_frame_witness :
  normalize_frame sample_parse_datetime sample_cast_value
    demo_schema demo_frame = Ok demo_normalized.
Proof.
  apply (proj1 (cast_dataframe_is_normalize_frame
                  sample_parse_datetime sample_cast_value
                  demo_schema demo_frame)).
  vm_compute. reflexivity.
Defined.



Lemma cast_dataframe_schema_order_witness :
  Permutation demo_schema (rev demo_schema)
  /\ NoDup (map Name demo_schema)
  /\ sample_cast_dataframe demo_schema demo_frame
     = (demo_normalized, Ok demo_normalized)
  /\ sample_cast_dataframe (rev demo_schema) demo_frame
     = (demo_normalized, Ok demo_normalized).
Proof.
  assert (NoDup (map Name demo_schema)) as Hnd.
  { simpl. repeat constructor; simpl; intuition discriminate. }
  split; [apply Permutation_rev|]. split; [exact Hnd|].
  split; [vm_compute; reflexivity|].
  apply (cast_dataframe_schema_order
           sample_parse_datetime sample_cast_value
           demo_schema (rev demo_schema) demo_frame demo_normalized
           demo_normalized (Permutation_rev demo_schema) Hnd).
  vm_compute. reflexivity.
Defined.


Lemma bucket_and_prefix_of_location_witness :
  lacks "/" "s3:" = true
  /\ lacks "/" "my_default_bucket" = true
  /\ contains "my_default_bucket/processed/sales/loans" "//" = false
  /\ bucket_and_prefix "s3://my_default_bucket/processed/sales/loans"
     = Returns ("my_default_bucket", "processed/sales/loans").
Proof.
  repeat (split; [reflexivity|]).
  exact (bucket_and_prefix_of_location
           "s3:" "my_default_bucket" "processed/sales/loans"
           eq_refl eq_refl eq_refl).
Defined.

Lemma bucket_and_prefix_needs_a_key_witness :
  lacks "/" "s3:" = true
  /\ lacks "/" "my_default_bucket" = true
  /\ bucket_and_prefix "s3://my_default_bucket"
     = Raises (ValueError "not enough values to unpack (expected 2, got 1)").
Proof.
  repeat (split; [reflexivity|]).
  exact (bucket_and_prefix_needs_a_key "s3:" "my_default_bucket"
           eq_refl eq_refl).
Defined.

Lemma path_below_root_of_location_witness :
  "my_default_bucket" <> EmptyString
  /\ starts_nowhere "my_default_bucket" "s3://"
       "my_default_bucket/processed/sales/loans" = true
  /\ contains "/processed/sales/loans" "my_default_bucket" = false
  /\ lacks "/" "processed" = true
  /\ path_below_root "s3://my_default_bucket/processed/sales/loans"
       "my_default_bucket"
     = Returns "sales/loans".
Proof.
  assert ("my_default_bucket" <> EmptyString) as Hb by discriminate.
  split; [exact Hb|]. repeat (split; [reflexivity|]).
  exact (path_below_root_of_location
           "s3://" "my_default_bucket" "processed" "sales/loans"
           Hb eq_refl eq_refl eq_refl).
Defined.

Lemma path_below_root_index_error_witness :
  "my_default_bucket" <> EmptyString
  /\ contains "s3://elsewhere/processed/sales/loans" "my_default_bucket"
     = false
  /\ path_below_root "s3://elsewhere/processed/sales/loans"
       "my_default_bucket"
     = Raises IndexError.
Proof.
  assert ("my_default_bucket" <> EmptyString) as Hb by discriminate.
  split; [exact Hb|]. split; [reflexivity|].
  exact (path_below_root_index_error
           "s3://elsewhere/processed/sales/loans" "my_default_bucket"
           Hb eq_refl).
Defined.

Lemma destination_key_drops_first_folder_witness :
  lacks "/" "incoming" = true
  /\ destination_key "processed" "sales" "loans"
       "incoming/2020/01/31/x.parquet"
     = Returns "processed/sales/loans/2020/01/31/x.parquet"
  /\ destination_key "processed" "sales" "loans" "archive/2020/01/31/x.parquet"
     = destination_key "processed" "sales" "loans"
         "incoming/2020/01/31/x.parquet".
Proof.
  split; [reflexivity|].
  destruct (destination_key_drops_first_folder
              "processed" "sales" "loans" "incoming" "2020/01/31/x.parquet"
              eq_refl) as [H1 [_ H3]].
  split; [exact H1|]. exact (H3 "archive" eq_refl).
Defined.

Lemma quiet_up_to_date (me : t) : up_to_date quiet me.
Proof. intros l. reflexivity. Defined.

Lemma drop_twice_witness :
  drop quiet (fresh (loans OVERWRITE INCOMING))
  = (fst (drop quiet (fresh (loans OVERWRITE INCOMING))), Returns tt)
  /\ log (fst (drop quiet (fresh (loans OVERWRITE INCOMING))))
     = [TableDrop "loans"]
  /\ truthy (glue_definition
               (self (fst (drop quiet (fresh (loans OVERWRITE INCOMING))))))
     = false
  /\ drop quiet (fst (drop quiet (fresh (loans OVERWRITE INCOMING))))
     = (fst (drop quiet (fresh (loans OVERWRITE INCOMING))), Returns tt).
Proof.
  split; [vm_compute; reflexivity|]. split; [vm_compute; reflexivity|].
  apply (drop_twice quiet (fresh (loans OVERWRITE INCOMING))).
  vm_compute. reflexivity.
Defined.

Lemma empty_deletes_the_listed_keys_witness :
  up_to_date quiet (self (fresh (loans OVERWRITE INCOMING)))
  /\ empty quiet (fresh (loans OVERWRITE INCOMING))
     = (fst (empty quiet (fresh (loans OVERWRITE INCOMING))), Returns tt)
  /\ filter is_delete
       (log (fst (empty quiet (fresh (loans OVERWRITE INCOMING)))))
     = [DeleteObject "my_default_bucket" "processed/sales/loans/a.parquet";
        DeleteObject "my_default_bucket" "processed/sales/loans/b.parquet"]
  /\ access_type (self (fresh (loans OVERWRITE INCOMING))) = OVERWRITE
  /\ self (fst (empty quiet (fresh (loans OVERWRITE INCOMING))))
     = self (fresh (loans OVERWRITE INCOMING)).
Proof.
  split; [apply quiet_up_to_date|].
  split; [vm_compute; reflexivity|]. split; [vm_compute; reflexivity|].
  destruct (empty_deletes_the_listed_keys
              quiet (fresh (loans OVERWRITE INCOMING))
              (fst (empty quiet (fresh (loans OVERWRITE INCOMING))))
              (quiet_up_to_date _))
    as [H1 [H2 _]]; [vm_compute; reflexivity|].
  split; [exact H1 | exact H2].
Defined.

Lemma purge_leaves_no_definition_witness :
  purge quiet (fresh (loans OVERWRITE INCOMING))
  = (fst (purge quiet (fresh (loans OVERWRITE INCOMING))), Returns tt)
  /\ truthy (glue_definition
               (self (fst (purge quiet (fresh (loans OVERWRITE INCOMING))))))
     = false.
Proof.
  split; [vm_compute; reflexivity|].
  apply (purge_leaves_no_definition quiet (fresh (loans OVERWRITE INCOMING))).
  vm_compute. reflexivity.
Defined.

Lemma list_objects_asks_for_the_location_witness :
  raises quiet (log (fresh (loans OVERWRITE INCOMING))) SetGlueDictionary
  = None
  /\ list_objects quiet (fresh (loans OVERWRITE INCOMING))
     = ({| self := loans OVERWRITE INCOMING;
           log := [SetGlueDictionary;
                   ListObjects "my_default_bucket" "processed/sales/loans"] |},
        Returns ["processed/sales/loans/a.parquet";
                 "processed/sales/loans/b.parquet"]).
Proof.
  split; [reflexivity|].
  destruct (list_objects_asks_for_the_location
              quiet (fresh (loans OVERWRITE INCOMING)) eq_refl) as [_ H].
  exact (H "EXTERNAL_TABLE" "s3:" "my_default_bucket" "processed/sales/loans"
           [mkColumn "zip_cd" "string"]
           eq_refl eq_refl eq_refl eq_refl eq_refl eq_refl).
Defined.

Lemma populate_from_source_ends_with_repair_witness :
  populate_from_source quiet "2020/01/31" true
    (fresh (loans OVERWRITE (OtherSource "MANUAL")))
  = ({| self := loans OVERWRITE (OtherSource "MANUAL");
        log := [SetGlueDictionary; SetGlueDictionary;
                Execute "MSCK REPAIR TABLE sales.loans;"] |}, Returns tt)
  /\ truthy (glue_definition (loans OVERWRITE (OtherSource "MANUAL"))) = true
  /\ exists l,
      [SetGlueDictionary; SetGlueDictionary;
       Execute "MSCK REPAIR TABLE sales.loans;"]
      = (l ++ [SetGlueDictionary;
               msck (loans OVERWRITE (OtherSource "MANUAL"))])%list.
Proof.
  split; [vm_compute; reflexivity|].
  apply (populate_from_source_ends_with_repair quiet "2020/01/31" true
           (fresh (loans OVERWRITE (OtherSource "MANUAL")))
           {| self := loans OVERWRITE (OtherSource "MANUAL");
              log := [SetGlueDictionary; SetGlueDictionary;
                      Execute "MSCK REPAIR TABLE sales.loans;"] |}).
  vm_compute. reflexivity.
Defined.

Lemma populate_incoming_moves_every_file_witness :
  source_type (self (fresh (loans OVERWRITE INCOMING))) = INCOMING
  /\ populate_from_source quiet "2020/01/31" true
       (fresh (loans OVERWRITE INCOMING))
     = (fst (populate_from_source quiet "2020/01/31" true
               (fresh (loans OVERWRITE INCOMING))), Returns tt)
  /\ filter is_delete
       (log (fst (populate_from_source quiet "2020/01/31" true
                    (fresh (loans OVERWRITE INCOMING)))))
     = [DeleteObject "my_default_bucket" "processed/sales/loans/a.parquet";
        DeleteObject "my_default_bucket" "processed/sales/loans/b.parquet";
        DeleteObject "my_default_bucket" "incoming/2020/01/31/x.parquet";
        DeleteObject "my_default_bucket" "incoming/2020/02/01/y.parquet"]
  /\ self (fst (populate_from_source quiet "2020/01/31" true
                  (fresh (loans OVERWRITE INCOMING))))
     = loans OVERWRITE INCOMING.
Proof.
  split; [reflexivity|]. split; [vm_compute; reflexivity|].
  split; [vm_compute; reflexivity|].
  apply (populate_incoming_moves_every_file
           quiet "2020/01/31" true "processed"
           (fresh (loans OVERWRITE INCOMING))
           (fst (populate_from_source quiet "2020/01/31" true
                   (fresh (loans OVERWRITE INCOMING))))
           (quiet_up_to_date _) eq_refl (fun _ => eq_refl)).
  vm_compute. reflexivity.
Defined.

Lemma populate_legacy_copies_current_files_witness :
  source_type (self (fresh (loans OVERWRITE LEGACY))) = LEGACY
  /\ populate_from_source quiet "2020/01/31" true
       (fresh (loans OVERWRITE LEGACY))
     = (fst (populate_from_source quiet "2020/01/31" true
               (fresh (loans OVERWRITE LEGACY))), Returns tt)
  /\ self (fst (populate_from_source quiet "2020/01/31" true
                  (fresh (loans OVERWRITE LEGACY))))
     = loans OVERWRITE LEGACY.
Proof.
  split; [reflexivity|]. split; [vm_compute; reflexivity|].
  apply (populate_legacy_copies_current_files
           quiet "2020/01/31" true "processed"
           (fresh (loans OVERWRITE LEGACY))
           (fst (populate_from_source quiet "2020/01/31" true
                   (fresh (loans OVERWRITE LEGACY))))
           (quiet_up_to_date _) eq_refl (fun _ => eq_refl)).
  vm_compute. reflexivity.
Defined.

Lemma populate_production_copies_files_of_the_day_witness :
  source_type (self (fresh (loans OVERWRITE PRODUCTION))) = PRODUCTION
  /\ populate_from_source quiet "2020/01/31" true
       (fresh (loans OVERWRITE PRODUCTION))
     = (fst (populate_from_source quiet "2020/01/31" true
               (fresh (loans OVERWRITE PRODUCTION))), Returns tt)
  /\ self (fst (populate_from_source quiet "2020/01/31" true
                  (fresh (loans OVERWRITE PRODUCTION))))
     = loans OVERWRITE PRODUCTION.
Proof.
  split; [reflexivity|]. split; [vm_compute; reflexivity|].
  apply (populate_production_copies_files_of_the_day
           quiet "2020/01/31" true "processed"
           (fresh (loans OVERWRITE PRODUCTION))
           (fst (populate_from_source quiet "2020/01/31" true
                   (fresh (loans OVERWRITE PRODUCTION))))
           (quiet_up_to_date _) eq_refl (fun _ => eq_refl)).
  vm_compute. reflexivity.
Defined.

Lemma empty_outside_table_bucket_raises_witness :
  access_type (self (fresh stray)) = OVERWRITE
  /\ contains "s3://elsewhere/processed/sales/loans"
       (table_bucket (self (fresh stray))) = false
  /\ empty quiet (fresh stray)
     = ({| self := stray; log := [SetGlueDictionary; SetGlueDictionary] |},
        Raises IndexError)
  /\ exists w' e,
      empty quiet (fresh stray) = (w', Raises e)
      /\ (e = IndexError \/ exists what, e = ExternalError what)
      /\ self w' = self (fresh stray)
      /\ (log w' = log (fresh stray)
          \/ log w' = (log (fresh stray) ++ [SetGlueDictionary])%list
          \/ log w'
             = (log (fresh stray)
                ++ [SetGlueDictionary; SetGlueDictionary])%list).
Proof.
  split; [reflexivity|]. split; [reflexivity|].
  split; [vm_compute; reflexivity|].
  assert (table_bucket (self (fresh stray)) <> EmptyString) as Hb
      by discriminate.
  exact (empty_outside_table_bucket_raises
           quiet (fresh stray)
           (mkGlueTable "s3://elsewhere/processed/sales/loans" [])
           (quiet_up_to_date _) eq_refl eq_refl Hb eq_refl).
Defined.

Lemma empty_after_init_always_raises_witness :
  (forall l' me, access_type (fetched quiet l' me) = access_type me)
  /\ exists w' e,
      empty quiet
        {| self := __init__ "sales" "loans" OVERWRITE PRODUCTION; log := [] |}
      = (w', Raises e)
      /\ ((exists msg, e = AssertionError msg)
          \/ exists what, e = ExternalError what)
      /\ (log w' = [] \/ log w' = ([] ++ [SetGlueDictionary])%list).
Proof.
  split; [intros; reflexivity|].
  exact (empty_after_init_always_raises
           quiet "sales" "loans" OVERWRITE PRODUCTION [] (fun _ _ => eq_refl)).
Defined.

Lemma build_from_sql_ends_repaired_witness :
  build_from_sql rebuilding (fresh (loans OVERWRITE ATHENA))
  = (fst (build_from_sql rebuilding (fresh (loans OVERWRITE ATHENA))),
     Returns tt)
  /\ filter is_create
       (log (fst (build_from_sql rebuilding (fresh (loans OVERWRITE ATHENA)))))
     = [Execute "CREATE TABLE t AS SELECT 1"]
  /\ truthy (glue_definition
               (self (fst (build_from_sql rebuilding
                             (fresh (loans OVERWRITE ATHENA))))))
     = true.
Proof.
  split; [vm_compute; reflexivity|]. split; [vm_compute; reflexivity|].
  apply (build_from_sql_ends_repaired
           rebuilding (fresh (loans OVERWRITE ATHENA))
           (fst (build_from_sql rebuilding (fresh (loans OVERWRITE ATHENA))))).
  vm_compute. reflexivity.
Defined.
